(** * MusicXML transposition: a shallow embedding of [transpose.py]

    The development follows the layout of the Python module:

    - the exceptions that the module can raise, and a small error monad;
    - the pitch algebra ([note_to_chromatic], [chromatic_to_note],
      [calculate_semitone_shift]) with its constant tables;
    - the built-ins [int] and [str] on the texts that the module reads and
      writes;
    - the [xml.etree.ElementTree] elements and the calls that the module
      makes on them ([find], [findall], [remove], [insert], [SubElement]);
    - the two loops of [transpose_musicxml], over the key markers and over
      the pitch markers;
    - the output path ([pathlib]) and the files that [ET.parse] reads and
      [tree.write] stores;
    - [parse_musicxml] of [cli.py], and the code of [main.py] and
      [api/main.py] that names the keys, chooses the target key and calls
      the transposition;
    - the properties of the transposition, of the parser and of the
      callers.

    Python integers are unbounded, so they are [Z]; [%] and [//] with the
    positive divisor 12 are [Z.modulo] and [Z.div]. Dictionaries are
    [gmap]s. Strings are sequences of ASCII characters. *)

From Stdlib Require Import ZArith String Ascii List Lia DecimalString DecimalZ.
From stdpp Require Import gmap strings list.

Open Scope Z_scope.
Open Scope string_scope.

(** ** Exceptions *)

(** The values an exception of this module carries. *)
Inductive pyobj :=
| PyNone
| PyInt (n : Z)
| PyStr (s : string).

(** The exception classes that the code of [transpose.py] can raise:
    [ValueError] by the two explicit [raise] statements and by [int],
    [KeyError] by a failed dictionary subscript, [TypeError] by [int(None)],
    [FileNotFoundError] by [ET.parse]. *)
Inductive exn :=
| ValueError (msg : string)
| KeyError (key : pyobj)
| TypeError (msg : string)
| FileNotFoundError (path : string).

Inductive exc (A : Type) :=
| Raise (e : exn)
| Return (a : A).
Arguments Raise {A} e.
Arguments Return {A} a.

Definition bind {A B} (m : exc A) (k : A -> exc B) : exc B :=
  match m with
  | Raise e => Raise e
  | Return a => k a
  end.

Notation "x <- m ;; k" := (bind m (fun x => k))
  (at level 100, m at next level, right associativity).

Definition returns {A} (m : exc A) : Prop := exists a, m = Return a.

(** [d[k]] on a dictionary: [KeyError(k)] when the key is missing. *)
Definition getitem {K V} `{Countable K} (repr : K -> pyobj)
    (d : gmap K V) (k : K) : exc V :=
  match d !! k with
  | Some v => Return v
  | None => Raise (KeyError (repr k))
  end.

(** ** Pitch algebra *)

Definition NOTES : list string := ["C"; "D"; "E"; "F"; "G"; "A"; "B"].
Definition CHROMATIC : list string :=
  ["C"; "C#"; "D"; "D#"; "E"; "F"; "F#"; "G"; "G#"; "A"; "A#"; "B"].

(** Key signature to pitch mapping (fifths notation: -7 to +7). *)
Definition KEY_SIGNATURES : gmap Z (string * option string * Z) :=
  list_to_map
    [ (-7, ("C", Some "flat", 7));
      (-6, ("G", Some "flat", 6));
      (-5, ("D", Some "flat", 5));
      (-4, ("A", Some "flat", 4));
      (-3, ("E", Some "flat", 3));
      (-2, ("B", Some "flat", 2));
      (-1, ("F", None, 1));
      (0, ("C", None, 0));
      (1, ("G", None, 1));
      (2, ("D", None, 2));
      (3, ("A", None, 3));
      (4, ("E", None, 4));
      (5, ("B", None, 5));
      (6, ("F", Some "sharp", 6));
      (7, ("C", Some "sharp", 7)) ].

(** The table of [note_to_chromatic]. *)
Definition base_notes : gmap string Z :=
  list_to_map
    [("C", 0); ("D", 2); ("E", 4); ("F", 5); ("G", 7); ("A", 9); ("B", 11)].

(** The step of a pitch is the [text] of an element, which is [None] when
    the element is empty; a dictionary subscript with [None] raises
    [KeyError(None)]. *)
Definition note_to_chromatic (step : option string) (alter : Z) : exc Z :=
  match step with
  | Some s =>
      b <- getitem PyStr base_notes s ;;
      Return ((b + alter) `mod` 12)
  | None => Raise (KeyError PyNone)
  end.

Arguments note_to_chromatic : simpl never.

(** The tables of [chromatic_to_note]: the natural notes, and the black
    keys as the note below with a sharp or the note above with a flat. *)
Definition naturals : gmap Z string :=
  list_to_map
    [(0, "C"); (2, "D"); (4, "E"); (5, "F"); (7, "G"); (9, "A"); (11, "B")].

Definition sharp_map : gmap Z (string * Z) :=
  list_to_map
    [(1, ("C", 1)); (3, ("D", 1)); (6, ("F", 1)); (8, ("G", 1));
     (10, ("A", 1))].

Definition flat_map : gmap Z (string * Z) :=
  list_to_map
    [(1, ("D", -1)); (3, ("E", -1)); (6, ("G", -1)); (8, ("A", -1));
     (10, ("B", -1))].

Definition chromatic_to_note (chromatic_index : Z) (prefer_sharps : bool)
    : exc (string * Z) :=
  let chromatic_index := chromatic_index `mod` 12 in
  match naturals !! chromatic_index with
  | Some step => Return (step, 0)
  | None =>
      if prefer_sharps
      then getitem PyInt sharp_map chromatic_index
      else getitem PyInt flat_map chromatic_index
  end.

Arguments chromatic_to_note : simpl never.

(** [1 if kind == 'sharp' else -1 if kind == 'flat' else 0] *)
Definition key_alter (kind : option string) : Z :=
  if decide (kind = Some "sharp") then 1
  else if decide (kind = Some "flat") then -1
  else 0.

Definition calculate_semitone_shift (from_key to_key : Z) : exc Z :=
  from_sig <- getitem PyInt KEY_SIGNATURES from_key ;;
  from_tonic <-
    note_to_chromatic (Some from_sig.1.1) (key_alter from_sig.1.2) ;;
  to_sig <- getitem PyInt KEY_SIGNATURES to_key ;;
  to_tonic <- note_to_chromatic (Some to_sig.1.1) (key_alter to_sig.1.2) ;;
  Return ((to_tonic - from_tonic) `mod` 12).

(** ** The built-ins [int] and [str] *)

(** The ASCII white space that [int] skips around a literal: tab, line
    feed, vertical tab, form feed, carriage return and the space. *)
Definition is_space (c : ascii) : bool :=
  let n := nat_of_ascii c in
  ((9 <=? n)%nat && (n <=? 13)%nat) || (n =? 32)%nat.

Definition is_digit (c : ascii) : bool :=
  let n := nat_of_ascii c in (48 <=? n)%nat && (n <=? 57)%nat.

Fixpoint lstrip (s : string) : string :=
  match s with
  | EmptyString => EmptyString
  | String c r => if is_space c then lstrip r else s
  end.

Fixpoint rstrip (s : string) : string :=
  match s with
  | EmptyString => EmptyString
  | String c r =>
      match rstrip r with
      | EmptyString =>
          if is_space c then EmptyString else String c EmptyString
      | r' => String c r'
      end
  end.

Definition strip (s : string) : string := rstrip (lstrip s).

(** The digits of an integer literal: one or more decimal digits, with
    single underscores allowed between two digits. The result drops the
    underscores. [after_digit] says that the previous character was a
    digit. *)
Fixpoint literal_digits (after_digit : bool) (s : string) : option string :=
  match s with
  | EmptyString => if after_digit then Some EmptyString else None
  | String c r =>
      if is_digit c then String c <$> literal_digits true r
      else if decide (c = "_"%char) then
        if after_digit then literal_digits false r else None
      else None
  end.

Definition unsigned_literal (s : string) : option Z :=
  match literal_digits false s with
  | Some ds => Z.of_uint <$> NilEmpty.uint_of_string ds
  | None => None
  end.

(** [int(s)] for a string in base 10: surrounding white space, one optional
    sign, digits. Only ASCII white space and ASCII digits are recognised
    here; other characters make the literal invalid. *)
Definition int_literal (s : string) : option Z :=
  match strip s with
  | EmptyString => None
  | String c r =>
      if decide (c = "+"%char) then unsigned_literal r
      else if decide (c = "-"%char) then Z.opp <$> unsigned_literal r
      else unsigned_literal (String c r)
  end.

(** [int(x)] where [x] is the [text] of an element ([None] or a string).
    The message of the [ValueError] quotes the literal without the
    escaping that [repr] would add. *)
Definition py_int (x : option string) : exc Z :=
  match x with
  | None =>
      Raise (TypeError
        ("int() argument must be a string, a bytes-like object or a real "
         ++ "number, not 'NoneType'"))
  | Some s =>
      match int_literal s with
      | Some n => Return n
      | None =>
          Raise (ValueError
            ("invalid literal for int() with base 10: '" ++ s ++ "'"))
      end
  end.

(** [str(n)] for an integer. *)
Definition py_str (n : Z) : string := NilZero.string_of_int (Z.to_int n).

Arguments py_int : simpl never.
Arguments py_str : simpl never.

(** ** Element trees *)

(** An [xml.etree.ElementTree.Element]: tag, attributes, text, tail and the
    list of children. [ET.parse] builds a tree, so no element is shared. *)
#[local] Unset Elimination Schemes.
Inductive Element := mkElement {
  tag : string;
  attrib : list (string * string);
  text : option string;
  tail : option string;
  children : list Element
}.
#[local] Set Elimination Schemes.

Definition with_children (e : Element) (ch : list Element) : Element :=
  mkElement (tag e) (attrib e) (text e) (tail e) ch.

Definition with_text (e : Element) (t : option string) : Element :=
  mkElement (tag e) (attrib e) t (tail e) (children e).

(** [ET.SubElement(parent, tag)] creates an element with no attributes,
    no text, no tail and no children. *)
Definition SubElement (t : string) : Element := mkElement t [] None None [].

(** [parent.find(tag)]: the first child with that tag. *)
Fixpoint find (t : string) (ch : list Element) : option Element :=
  match ch with
  | [] => None
  | c :: r => if decide (tag c = t) then Some c else find t r
  end.

(** [parent.find(tag).text = value] when the child exists: the assignment
    changes the element that [find] returned, the first with that tag. *)
Fixpoint set_text (t : string) (value : option string) (ch : list Element)
    : list Element :=
  match ch with
  | [] => []
  | c :: r =>
      if decide (tag c = t) then with_text c value :: r
      else c :: set_text t value r
  end.

(** [parent.remove(parent.find(tag))]: [remove] compares by identity, and
    the element that [find] returned is the first with that tag. *)
Fixpoint remove_found (t : string) (ch : list Element) : list Element :=
  match ch with
  | [] => []
  | c :: r => if decide (tag c = t) then r else c :: remove_found t r
  end.

(** [parent.insert(index, child)] for an index that is not negative: an
    index past the end appends. *)
Definition insert_child (index : nat) (child : Element) (ch : list Element)
    : list Element :=
  take index ch ++ child :: drop index ch.

(** [elem.iter(tag)]: the element itself and its descendants with that tag,
    in document order. *)
Fixpoint iter (t : string) (e : Element) : list Element :=
  match e with
  | mkElement tg _ _ _ ch =>
      (if decide (tg = t) then [e] else []) ++ List.flat_map (iter t) ch
  end.

(** [root.findall(".//tag")]: the descendants of [root] with that tag, in
    document order; [root] itself is not among them. *)
Definition findall (t : string) (root : Element) : list Element :=
  List.flat_map (iter t) (children root).

(** [mapM f l] runs [f] on the elements of [l] from left to right and stops
    at the first exception. *)
Definition mapM {A B} (f : A -> exc B) : list A -> exc (list B) :=
  fix go (l : list A) : exc (list B) :=
    match l with
    | [] => Return []
    | x :: r => y <- f x ;; ys <- go r ;; Return (y :: ys)
    end.

(** ** The document rewriter *)

(** [ns_prefix] as [transpose_musicxml] computes it from the tag of the
    root: when the tag contains a closing brace, the text before the first
    one, without the opening braces at its ends, between braces again. *)
Fixpoint before_brace (s : string) : string :=
  match s with
  | EmptyString => EmptyString
  | String c r =>
      if decide (c = "}"%char) then EmptyString
      else String c (before_brace r)
  end.

Fixpoint has_brace (s : string) : bool :=
  match s with
  | EmptyString => false
  | String c r => if decide (c = "}"%char) then true else has_brace r
  end.

Fixpoint lstrip_brace (s : string) : string :=
  match s with
  | EmptyString => EmptyString
  | String c r => if decide (c = "{"%char) then lstrip_brace r else s
  end.

Fixpoint rstrip_brace (s : string) : string :=
  match s with
  | EmptyString => EmptyString
  | String c r =>
      match rstrip_brace r with
      | EmptyString =>
          if decide (c = "{"%char) then EmptyString else String c EmptyString
      | r' => String c r'
      end
  end.

Definition ns_prefix_of (root_tag : string) : string :=
  if has_brace root_tag
  then "{" ++ rstrip_brace (lstrip_brace (before_brace root_tag)) ++ "}"
  else "".

Section Rewriter.

Variable ns_prefix : string.
Variable semitone_shift : Z.
Variable prefer_sharps : bool.
Variable target_key : Z.

(** [f"{ns_prefix}local"] *)
Definition qname (local : string) : string := ns_prefix ++ local.

(** *** Key markers

    [for key_elem in root.findall(".//key")]: the text of the first
    [fifths] child, when there is one, becomes [str(target_key)]. The
    loop only assigns to the text of children of [key] elements, so the
    in-place loop is this map over the tree. *)
Fixpoint update_keys (e : Element) : Element :=
  match e with
  | mkElement tg at_ tx tl ch =>
      let ch := map update_keys ch in
      mkElement tg at_ tx tl
        (if decide (tg = qname "key")
         then set_text (qname "fifths") (Some (py_str target_key)) ch
         else ch)
  end.

(** *** Pitch markers *)

(** What the loop body reads from a pitch element: [None] when the step
    or the octave child is missing, otherwise the text of the step, the
    alteration and the octave. *)
Definition read_pitch (pitch_elem : list Element)
    : exc (option (option string * Z * Z)) :=
  let step := find (qname "step") pitch_elem in
  let alter := find (qname "alter") pitch_elem in
  let octave := find (qname "octave") pitch_elem in
  match step, octave with
  | Some step, Some octave =>
      current_alter <-
        match alter with
        | Some alter =>
            match text alter with
            | Some (String _ _ as t) => py_int (Some t)
            | _ => Return 0
            end
        | None => Return 0
        end ;;
      current_octave <- py_int (text octave) ;;
      Return (Some (text step, current_alter, current_octave))
  | _, _ => Return None
  end.

(** Convert to chromatic and transpose, then convert back to note
    notation: the new step, alteration and octave. *)
Definition transpose_pitch (current : option string * Z * Z)
    : exc (string * Z * Z) :=
  let '(current_step, current_alter, current_octave) := current in
  chromatic_value <- note_to_chromatic current_step current_alter ;;
  let new_chromatic := (chromatic_value + semitone_shift) `mod` 12 in
  let octave_shift := (chromatic_value + semitone_shift) `div` 12 in
  let new_octave := current_octave + octave_shift in
  new_note <- chromatic_to_note new_chromatic prefer_sharps ;;
  Return (new_note.1, new_note.2, new_octave).

(** Update XML: step and octave are overwritten; the alter child is
    removed when the note is natural, and otherwise created at index 1
    when it is missing, and its text set. ([SubElement] appends the new
    child, [remove] takes it off again, [insert(1, alter)] puts it at
    index 1.) *)
Definition update_pitch (new : string * Z * Z) (pitch_elem : list Element)
    : list Element :=
  let '(new_step, new_alter, new_octave) := new in
  let alter := find (qname "alter") pitch_elem in
  let pitch_elem := set_text (qname "step") (Some new_step) pitch_elem in
  let pitch_elem :=
    set_text (qname "octave") (Some (py_str new_octave)) pitch_elem in
  if decide (new_alter = 0) then
    match alter with
    | Some _ => remove_found (qname "alter") pitch_elem
    | None => pitch_elem
    end
  else
    match alter with
    | None =>
        insert_child 1
          (with_text (SubElement (qname "alter")) (Some (py_str new_alter)))
          pitch_elem
    | Some _ =>
        set_text (qname "alter") (Some (py_str new_alter)) pitch_elem
    end.

(** The part of the loop body that can raise: reading and computing. *)
Definition pitch_edit (pitch_elem : list Element)
    : exc (option (string * Z * Z)) :=
  current <- read_pitch pitch_elem ;;
  match current with
  | Some current => new <- transpose_pitch current ;; Return (Some new)
  | None => Return None
  end.

Definition apply_edit (edit : option (string * Z * Z))
    (pitch_elem : list Element) : list Element :=
  match edit with
  | Some new => update_pitch new pitch_elem
  | None => pitch_elem
  end.

(** The loop body on one pitch element. *)
Definition rewrite_pitch (pitch_elem : Element) : exc Element :=
  edit <- pitch_edit (children pitch_elem) ;;
  Return (with_children pitch_elem (apply_edit edit (children pitch_elem))).

(** [for pitch_elem in root.findall(".//pitch")]. [findall] returns the
    list of pitch elements before the loop starts, in document order, so
    an element is visited before its descendants, and an exception in the
    body ends the loop at the first element that raises. The body reads
    and writes the text of the step, alter and octave children of its
    element and the list of its children, and nothing else; none of these
    children is a pitch element, so what the body does to one element
    does not change what it reads at another. The in-place loop is
    therefore this walk: the edit of an element is computed from the
    children it has when the loop starts, its descendants are visited,
    and the edit is applied. *)
Fixpoint transpose_pitches (e : Element) : exc Element :=
  match e with
  | mkElement tg at_ tx tl ch =>
      edit <-
        (if decide (tg = qname "pitch") then pitch_edit ch
         else Return None) ;;
      ch' <- mapM transpose_pitches ch ;;
      Return (mkElement tg at_ tx tl (apply_edit edit ch'))
  end.

(** Both loops on the document: the root is not a candidate of either
    [findall]. *)
Definition rewrite_document (root : Element) : exc Element :=
  let root := with_children root (map update_keys (children root)) in
  ch <- mapM transpose_pitches (children root) ;;
  Return (with_children root ch).

End Rewriter.

(** ** Output path *)

(** [s.split(sep)] for a separator of one character. *)
Fixpoint split_on (sep : ascii) (s : string) : list string :=
  match s with
  | EmptyString => [EmptyString]
  | String c r =>
      let pieces := split_on sep r in
      if decide (c = sep) then EmptyString :: pieces
      else match pieces with
           | p :: ps => String c p :: ps
           | [] => [String c EmptyString]
           end
  end.

(** [s.rfind(c)] *)
Fixpoint rfind (c : ascii) (s : string) : option nat :=
  match s with
  | EmptyString => None
  | String d r =>
      match rfind c r with
      | Some i => Some (S i)
      | None => if decide (d = c) then Some 0%nat else None
      end
  end.

(** A [pathlib.PurePosixPath]: the root (empty, one slash or two) and the
    components; empty components and single dots are dropped when the
    path is parsed. *)
Record Path := mkPath { path_root : string; path_parts : list string }.

(** The root of a path: two leading slashes are kept, three or more
    collapse to one. *)
Definition path_root_of (s : string) : string :=
  match s with
  | String c1 (String c2 (String c3 _)) =>
      if decide (c1 = "/"%char) then
        if decide (c2 = "/"%char) then
          if decide (c3 = "/"%char) then "/" else "//"
        else "/"
      else ""
  | String c1 (String c2 EmptyString) =>
      if decide (c1 = "/"%char) then
        if decide (c2 = "/"%char) then "//" else "/"
      else ""
  | String c1 EmptyString => if decide (c1 = "/"%char) then "/" else ""
  | EmptyString => ""
  end.

Definition path_of (s : string) : Path :=
  mkPath (path_root_of s)
    (filter (fun p => p <> "" /\ p <> ".") (split_on "/" s)).

Fixpoint join_parts (parts : list string) : string :=
  match parts with
  | [] => ""
  | [p] => p
  | p :: ps => p ++ "/" ++ join_parts ps
  end.

(** [str(path)] *)
Definition path_str (p : Path) : string :=
  match path_root p, path_parts p with
  | EmptyString, [] => "."
  | r, parts => r ++ join_parts parts
  end.

(** [path.name] *)
Definition path_name (p : Path) : string := List.last (path_parts p) "".

(** [path.stem]: the name without its last suffix; a name that starts or
    ends with its only dot has no suffix. *)
Definition stem_of (name : string) : string :=
  match rfind "." name with
  | Some i =>
      if ((0 <? i)%nat && (i <? String.length name - 1)%nat)
      then substring 0 i name else name
  | None => name
  end.

Definition path_stem (p : Path) : string := stem_of (path_name p).

(** [path.with_name(name)] *)
Definition with_name (p : Path) (name : string) : exc Path :=
  if decide (path_name p = "") then
    Raise (ValueError ("PosixPath('" ++ path_str p ++ "') has an empty name"))
  else if decide (name = "" \/ name = "."
                  \/ (1 < length (split_on "/" name))%nat) then
    Raise (ValueError ("Invalid name '" ++ name ++ "'"))
  else Return (mkPath (path_root p) (removelast (path_parts p) ++ [name])).

(** ** The transposition *)

Record MusicXMLFile := mkMusicXMLFile {
  file_path : string;
  key_signature : option Z;
  time_signature : option (Z * Z);
  part_name : option string
}.

(** The files that hold documents, by path; [ET.parse] reads one and
    [tree.write] stores one. *)
Definition ET_parse (fs : gmap string Element) (path : string)
    : exc Element :=
  match fs !! path with
  | Some root => Return root
  | None =>
      Raise (FileNotFoundError
        ("[Errno 2] No such file or directory: '" ++ path ++ "'"))
  end.

(** The checks on the two keys and the transposition interval: the
    semitone shift and the spelling policy. *)
Definition check_keys (key_signature : option Z) (target_key : Z)
    : exc (Z * bool) :=
  match key_signature with
  | None =>
      Raise (ValueError "Source file must have a key signature to transpose")
  | Some source_key =>
      match KEY_SIGNATURES !! target_key with
      | None =>
          Raise (ValueError
            ("Target key must be between -7 and +7, got " ++ py_str target_key))
      | Some _ =>
          semitone_shift <- calculate_semitone_shift source_key target_key ;;
          Return (semitone_shift, bool_decide (0 <= target_key))
      end
  end.

(** The transposition of a document in memory. *)
Definition transpose_document (key_signature : option Z) (target_key : Z)
    (root : Element) : exc Element :=
  policy <- check_keys key_signature target_key ;;
  rewrite_document (ns_prefix_of (tag root)) policy.1 policy.2 target_key
    root.

Definition default_output_path (file_path : string) (target_key : Z)
    : exc string :=
  let original_path := path_of file_path in
  sig <- getitem PyInt KEY_SIGNATURES target_key ;;
  p <- with_name original_path
         (path_stem original_path ++ "_transposed_to_" ++ sig.1.1 ++ ".xml") ;;
  Return (path_str p).

(** [transpose_musicxml]: the returned path and the files after the call.
    The messages that the function prints are not part of the model. *)
Definition transpose_musicxml (music_file : MusicXMLFile) (target_key : Z)
    (output_path : option string) (fs : gmap string Element)
    : exc (string * gmap string Element) :=
  policy <- check_keys (key_signature music_file) target_key ;;
  root <- ET_parse fs (file_path music_file) ;;
  root <- rewrite_document (ns_prefix_of (tag root)) policy.1 policy.2
            target_key root ;;
  output_path <-
    match output_path with
    | Some p => Return p
    | None => default_output_path (file_path music_file) target_key
    end ;;
  Return (output_path, <[output_path := root]> fs).

(** ** Reading a score: [parse_musicxml] of [cli.py] *)

(** [s.lstrip()] and [s.rstrip()] for a class of characters. *)
Fixpoint lstrip_chars (P : ascii -> bool) (s : string) : string :=
  match s with
  | EmptyString => EmptyString
  | String c r => if P c then lstrip_chars P r else s
  end.

Fixpoint rstrip_chars (P : ascii -> bool) (s : string) : string :=
  match s with
  | EmptyString => EmptyString
  | String c r =>
      match rstrip_chars P r with
      | EmptyString => if P c then EmptyString else String c EmptyString
      | r' => String c r'
      end
  end.

(** The white space that [str.strip()] removes among the ASCII characters:
    the white space that [int] skips and the four separators 28 to 31. *)
Definition is_str_space (c : ascii) : bool :=
  let n := nat_of_ascii c in
  ((9 <=? n)%nat && (n <=? 13)%nat) || ((28 <=? n)%nat && (n <=? 32)%nat).

Definition str_strip (s : string) : string :=
  rstrip_chars is_str_space (lstrip_chars is_str_space s).

(** [ns] of [parse_musicxml]: the entry for the empty prefix, when the tag
    of the root contains a closing brace. *)
Definition default_namespace (root_tag : string) : option string :=
  if has_brace root_tag
  then Some (rstrip_brace (lstrip_brace (before_brace root_tag)))
  else None.

(** The tag that [find] looks for when the path names an element without a
    prefix: the default namespace, when there is one and it is not empty,
    goes in braces before the name (Python 3.8 and later). The namespace
    of a document is a URI; a star, which [find] would take as a wildcard,
    is not considered. *)
Definition path_tag (ns : option string) (local : string) : string :=
  match ns with
  | Some (String _ _ as uri) => "{" ++ uri ++ "}" ++ local
  | _ => local
  end.

(** The first child with tag [b] among the children of the elements of a
    list, taken in order. *)
Fixpoint first_child (b : string) (parents : list Element) : option Element :=
  match parents with
  | [] => None
  | e :: r =>
      match find b (children e) with
      | Some c => Some c
      | None => first_child b r
      end
  end.

(** [root.find(".//a/b", ns)]: the [b] children of the descendants [a] of
    the root come in the document order of the [a] elements, and [find]
    returns the first of them. *)
Definition find_below (a b : string) (root : Element) : option Element :=
  first_child b (findall a root).

(** [root.find(".//a", ns)]: the first descendant [a] in document order. *)
Definition find_descendant (a : string) (root : Element) : option Element :=
  head (findall a root).

(** [find_text(".//tag")]: the stripped text of the first descendant,
    [None] when there is no such element or its text is empty. *)
Definition find_text (ns : option string) (local : string) (root : Element)
    : option string :=
  match find_descendant (path_tag ns local) root with
  | Some elem =>
      match text elem with
      | Some (String _ _ as t) => Some (str_strip t)
      | _ => None
      end
  | None => None
  end.

(** [parse_musicxml]: the key signature is read from the first [fifths]
    child of a [key] element, the time signature from the first [beats]
    and the first [beat-type] child of [time] elements, the part name from
    the first [part-name] element. *)
Definition parse_musicxml (file_path : string) (fs : gmap string Element)
    : exc MusicXMLFile :=
  root <- ET_parse fs file_path ;;
  let ns := default_namespace (tag root) in
  let key_elem := find_below (path_tag ns "key") (path_tag ns "fifths") root in
  key_signature <-
    match key_elem with
    | Some key_elem => k <- py_int (text key_elem) ;; Return (Some k)
    | None => Return None
    end ;;
  let beats := find_below (path_tag ns "time") (path_tag ns "beats") root in
  let beat_type :=
    find_below (path_tag ns "time") (path_tag ns "beat-type") root in
  time_signature <-
    match beats, beat_type with
    | Some beats, Some beat_type =>
        n <- py_int (text beats) ;;
        d <- py_int (text beat_type) ;;
        Return (Some (n, d))
    | _, _ => Return None
    end ;;
  let part_name := find_text ns "part-name" root in
  Return (mkMusicXMLFile file_path key_signature time_signature part_name).

(** ** The callers: the key names and the checks of [main.py] and
    [api/main.py] *)

(** The name of a key as the callers format it from an entry of the table
    ([key_display] and [display] in the sources):
    [f"{key_name} major ({count} sharps)"] for a sharp key,
    [f"{key_name} major ({count} flats)"] for a flat key and
    [f"{key_name} major"] otherwise. *)
Definition key_display (key_info : string * option string * Z) : string :=
  let key_name := key_info.1.1 in
  let accidental := key_info.1.2 in
  let count := key_info.2 in
  if decide (accidental = Some "sharp")
  then key_name ++ " major (" ++ py_str count ++ " sharps)"
  else if decide (accidental = Some "flat")
  then key_name ++ " major (" ++ py_str count ++ " flats)"
  else key_name ++ " major".

(** [range(-7, 8)] *)
Definition fifths_range : list Z := seqZ (-7) 15.

(** The loop of [create_key_options] of the window: the options of the
    dropdown, and [key_mapping] from a display string to its fifths. *)
Fixpoint key_options_loop (fifths_list : list Z) (options : list string)
    (key_mapping : gmap string Z) : exc (list string * gmap string Z) :=
  match fifths_list with
  | [] => Return (options, key_mapping)
  | fifths :: rest =>
      key_info <- getitem PyInt KEY_SIGNATURES fifths ;;
      let display := key_display key_info in
      key_options_loop rest (options ++ [display])
        (<[display := fifths]> key_mapping)
  end.

Definition create_key_options : exc (list string * gmap string Z) :=
  key_options_loop fifths_range [] ∅.

(** An entry of the list that [get_available_keys] of the service
    returns. *)
Record KeyEntry := mkKeyEntry {
  fifths : Z;
  display : string;
  name : string
}.

Definition get_available_keys : exc (list KeyEntry) :=
  mapM (fun fifths =>
          key_info <- getitem PyInt KEY_SIGNATURES fifths ;;
          Return (mkKeyEntry fifths (key_display key_info) key_info.1.1))
    fifths_range.

(** What [transpose_music] of the window does with the selection of the
    dropdown: it shows a message box and returns, or it starts
    [transpose_musicxml] on the loaded score with the fifths of the
    selection. *)
Inductive gui_step :=
| showerror (title message : string)
| showwarning (title message : string)
| showinfo (title message : string)
| do_transpose (music_data : MusicXMLFile) (target_fifths : Z).

Definition transpose_music (music_data : option MusicXMLFile)
    (key_mapping : gmap string Z) (selected : string) : gui_step :=
  match music_data with
  | None => showerror "Error" "No music data loaded"
  | Some music_data =>
      if decide (selected = "Select a key...")
      then showwarning "Warning" "Please select a target key"
      else
        match key_mapping !! selected with
        | None => showerror "Error" "Invalid key selection"
        | Some target_fifths =>
            if decide (Some target_fifths = key_signature music_data)
            then showinfo "Info" "Music is already in the selected key!"
            else do_transpose music_data target_fifths
        end
  end.

(** [str(e)] for the exceptions of the module: the message, and for a
    [KeyError] the [repr] of the key (a string key is quoted here without
    the escaping that [repr] would add). *)
Definition exn_str (e : exn) : string :=
  match e with
  | ValueError msg => msg
  | TypeError msg => msg
  | FileNotFoundError msg => msg
  | KeyError PyNone => "None"
  | KeyError (PyInt n) => py_str n
  | KeyError (PyStr s) => "'" ++ s ++ "'"
  end.

(** An entry of [sessions] of the service, as [upload_pdf] stores it; the
    key [transposed_path] is absent until a transposition succeeds. *)
Record Session := mkSession {
  pdf_path : string;
  mxl_path : string;
  xml_path : string;
  original_key : option Z;
  session_time_signature : option (Z * Z);
  session_part_name : option string;
  transposed_path : option string
}.

Definition with_transposed_path (s : Session) (path : string) : Session :=
  mkSession (pdf_path s) (mxl_path s) (xml_path s) (original_key s)
    (session_time_signature s) (session_part_name s) (Some path).

(** The outcome of a request: an [HTTPException] or the content of the
    response. *)
Inductive http (A : Type) :=
| HTTPException (status_code : Z) (detail : string)
| Response (content : A).
Arguments HTTPException {A} status_code detail.
Arguments Response {A} content.

Record TransposeResponse := mkTransposeResponse {
  success : bool;
  session_id_of : string;
  transposed_key : Z;
  transposed_key_display : string;
  message : string
}.

(** [POST /api/transpose]: the outcome, the sessions and the files after
    the request. *)
Definition transpose (session_id : string) (target_key : Z)
    (sessions : gmap string Session) (fs : gmap string Element)
    : http TransposeResponse * gmap string Session * gmap string Element :=
  match sessions !! session_id with
  | None => (HTTPException 404 "Session not found", sessions, fs)
  | Some session_data =>
      match KEY_SIGNATURES !! target_key with
      | None =>
          (HTTPException 400
             ("Invalid target key. Must be between -7 and +7, got "
              ++ py_str target_key), sessions, fs)
      | Some _ =>
          let music_data :=
            mkMusicXMLFile (xml_path session_data)
              (original_key session_data)
              (session_time_signature session_data)
              (session_part_name session_data) in
          match transpose_musicxml music_data target_key None fs with
          | Raise e => (HTTPException 500 (exn_str e), sessions, fs)
          | Return (path, fs) =>
              let sessions :=
                <[session_id := with_transposed_path session_data path]>
                  sessions in
              match getitem PyInt KEY_SIGNATURES target_key with
              | Raise e => (HTTPException 500 (exn_str e), sessions, fs)
              | Return key_info =>
                  (Response
                     (mkTransposeResponse true session_id target_key
                        (key_display key_info)
                        ("Successfully transposed to "
                         ++ key_display key_info)),
                   sessions, fs)
              end
          end
      end
  end.

(** [POST /api/convert-to-pdf] up to the call of the renderer: the checks
    on the session, and the file that [convert_musicxml_to_pdf] is given. *)
Definition convert_to_pdf_source (session_id : string)
    (sessions : gmap string Session) : http string :=
  match sessions !! session_id with
  | None => HTTPException 404 "Session not found"
  | Some session_data =>
      match transposed_path session_data with
      | None =>
          HTTPException 400
            "No transposed file available. Please transpose first."
      | Some transposed_xml => Response transposed_xml
      end
  end.

(** ** The specification's vocabulary *)

(** The base chromatic offsets of the data model of the specification:
    C=0, D=2, E=4, F=5, G=7, A=9, B=11. *)
Definition spec_base_offset (letter : string) : option Z :=
  match letter with
  | "C" => Some 0
  | "D" => Some 2
  | "E" => Some 4
  | "F" => Some 5
  | "G" => Some 7
  | "A" => Some 9
  | "B" => Some 11
  | _ => None
  end.

(** The tonic class of an entry of the key table in the words of the
    specification: the base offset of the tonic letter, adjusted by +1 for
    the accidental kind sharp, -1 for flat and 0 for none. *)
Definition spec_tonic_class (entry : string * option string * Z)
    : option Z :=
  match spec_base_offset entry.1.1 with
  | Some b =>
      match entry.1.2 with
      | Some "sharp" => Some (b + 1)
      | Some "flat" => Some (b - 1)
      | Some _ => None
      | None => Some b
      end
  | None => None
  end.

(** The letter of a natural class: 0, 2, 4, 5, 7, 9 and 11. *)
Definition spec_natural_letter (class : Z) : option string :=
  match class with
  | 0 => Some "C"
  | 2 => Some "D"
  | 4 => Some "E"
  | 5 => Some "F"
  | 7 => Some "G"
  | 9 => Some "A"
  | 11 => Some "B"
  | _ => None
  end.

(** ** Auxiliary notions *)

Fixpoint all_chars (P : ascii -> bool) (s : string) : bool :=
  match s with
  | EmptyString => true
  | String c r => P c && all_chars P r
  end.

(** The position of the child that [find] returns. *)
Fixpoint index (t : string) (ch : list Element) : option nat :=
  match ch with
  | [] => None
  | c :: r => if decide (tag c = t) then Some 0%nat else S <$> index t r
  end.

(** The number of children with a given tag. *)
Fixpoint count_tag (t : string) (ch : list Element) : nat :=
  match ch with
  | [] => 0%nat
  | c :: r => ((if decide (tag c = t) then 1 else 0) + count_tag t r)%nat
  end.

(** The alter child sits right after the step child and before the octave
    child (each of them the first child with its tag). *)
Definition alter_after_step (ns_prefix : string) (ch : list Element)
    : Prop :=
  exists i j,
    index (qname ns_prefix "step") ch = Some i
    /\ index (qname ns_prefix "alter") ch = Some (S i)
    /\ index (qname ns_prefix "octave") ch = Some j
    /\ (S i < j)%nat.

(** The chromatic class of the tonic of a key, as
    [calculate_semitone_shift] computes it (0 outside the table). *)
Definition tonic_of (key : Z) : Z :=
  match KEY_SIGNATURES !! key with
  | Some sig =>
      match note_to_chromatic (Some sig.1.1) (key_alter sig.1.2) with
      | Return t => t
      | Raise _ => 0
      end
  | None => 0
  end.

(** A pitch element as the schema has it: at most one alter child, and no
    pitch element below it. *)
Definition plain_pitch (ns_prefix : string) (p : Element) : Prop :=
  (count_tag (qname ns_prefix "alter") (children p) <= 1)%nat
  /\ List.flat_map (iter (qname ns_prefix "pitch")) (children p) = [].

Definition plain_pitches (ns_prefix : string) (root : Element) : Prop :=
  Forall (plain_pitch ns_prefix) (findall (qname ns_prefix "pitch") root).

(** [p'] reads as the transposition of what [p] reads: a marker that the
    loop skips is still skipped, and otherwise the step and alteration are
    those of the shifted class and the octave has the carry added. *)
Definition transposed_marker (ns_prefix : string) (shift : Z)
    (prefer_sharps : bool) (p p' : Element) : Prop :=
  match read_pitch ns_prefix (children p) with
  | Return None => read_pitch ns_prefix (children p') = Return None
  | Return (Some (step, alter, octave)) =>
      exists pc new_step new_alter,
        note_to_chromatic step alter = Return pc
        /\ chromatic_to_note ((pc + shift) `mod` 12) prefer_sharps
           = Return (new_step, new_alter)
        /\ read_pitch ns_prefix (children p')
           = Return (Some (Some new_step, new_alter,
                           octave + (pc + shift) `div` 12))
  | Raise _ => False
  end.

(** [p'] reads as [p] respelled: the same octave and the same chromatic
    class, spelled as [chromatic_to_note] spells that class under the
    policy; a marker that the loop skips is still skipped. *)
Definition respelled_marker (ns_prefix : string) (prefer_sharps : bool)
    (p p' : Element) : Prop :=
  match read_pitch ns_prefix (children p) with
  | Return None => read_pitch ns_prefix (children p') = Return None
  | Return (Some (step, alter, octave)) =>
      exists pc new_step new_alter,
        note_to_chromatic step alter = Return pc
        /\ chromatic_to_note pc prefer_sharps = Return (new_step, new_alter)
        /\ note_to_chromatic (Some new_step) new_alter = Return pc
        /\ read_pitch ns_prefix (children p')
           = Return (Some (Some new_step, new_alter, octave))
  | Raise _ => False
  end.

(** [p'] reads as a note of the same chromatic class as [p], a number of
    octaves higher; a marker that the loop skips is still skipped. *)
Definition same_class_marker (ns_prefix : string) (octaves_up : Z)
    (p p' : Element) : Prop :=
  match read_pitch ns_prefix (children p) with
  | Return None => read_pitch ns_prefix (children p') = Return None
  | Return (Some (step, alter, octave)) =>
      exists pc new_step new_alter,
        note_to_chromatic step alter = Return pc
        /\ note_to_chromatic (Some new_step) new_alter = Return pc
        /\ read_pitch ns_prefix (children p')
           = Return (Some (Some new_step, new_alter, octave + octaves_up))
  | Raise _ => False
  end.

(** The spellings that [chromatic_to_note] produces: the seven naturals,
    and the five sharps or the five flats of the policy. *)
Definition kept_spelling (prefer_sharps : bool) (step : string) (alter : Z)
    : bool :=
  bool_decide (alter = 0 /\ step ∈ NOTES)
  || (prefer_sharps
      && bool_decide (alter = 1 /\ step ∈ ["C"; "D"; "F"; "G"; "A"]))
  || (negb prefer_sharps
      && bool_decide (alter = -1 /\ step ∈ ["D"; "E"; "G"; "A"; "B"])).

(** Whether a computation returns or which exception it raises. *)
Definition outcome {A} (m : exc A) : exc unit := _ <- m ;; Return tt.

(** The path that [transpose_musicxml] returns, or its exception. *)
Definition returned_path (r : exc (string * gmap string Element))
    : exc string :=
  x <- r ;; Return x.1.

(** The name of a key of the table (empty outside the table), and the
    assignment of the loop of [create_key_options]. *)
Definition display_of (key : Z) : string :=
  from_option key_display "" (KEY_SIGNATURES !! key).

Definition add_option (key_mapping : gmap string Z) (key : Z)
    : gmap string Z :=
  <[display_of key := key]> key_mapping.



(** The children of a pitch element that the loop body can process: with
    a step and an octave child, the text of the alter child is empty or an
    integer literal, the text of the octave child is an integer literal and
    the text of the step child is one of the seven letters. *)
Definition readable_pitch (ns_prefix : string) (pitch_elem : list Element)
    : Prop :=
  match find (qname ns_prefix "step") pitch_elem,
        find (qname ns_prefix "octave") pitch_elem with
  | Some step, Some octave =>
      (forall alter t,
         find (qname ns_prefix "alter") pitch_elem = Some alter ->
         text alter = Some t -> t <> "" -> is_Some (int_literal t))
      /\ (exists t, text octave = Some t /\ is_Some (int_literal t))
      /\ (exists letter, text step = Some letter /\ letter ∈ NOTES)
  | _, _ => True
  end.

(** [p'] reads as the note of [p] a number of octaves higher, with the
    same letter and alteration; a marker that the loop skips is still
    skipped. *)
Definition same_note_marker (ns_prefix : string) (octaves_up : Z)
    (p p' : Element) : Prop :=
  match read_pitch ns_prefix (children p) with
  | Return None => read_pitch ns_prefix (children p') = Return None
  | Return (Some (step, alter, octave)) =>
      read_pitch ns_prefix (children p')
      = Return (Some (step, alter, octave + octaves_up))
  | Raise _ => False
  end.


(** The summary that [parse_musicxml] makes of what it found: the texts of
    the fifths, beats and beat-type elements and of the part name, each
    absent when there is no such element. *)
Definition score_summary (file_path : string)
    (key beats beat_type part : option (option string)) : exc MusicXMLFile :=
  key_signature <-
    match key with
    | Some key => k <- py_int key ;; Return (Some k)
    | None => Return None
    end ;;
  time_signature <-
    match beats, beat_type with
    | Some beats, Some beat_type =>
        n <- py_int beats ;;
        d <- py_int beat_type ;;
        Return (Some (n, d))
    | _, _ => Return None
    end ;;
  let part_name :=
    match part with
    | Some (Some (String _ _ as t)) => Some (str_strip t)
    | _ => None
    end in
  Return (mkMusicXMLFile file_path key_signature time_signature part_name).

(** A text of ASCII characters, and one of at most 4000 of them: on such
    texts [int], [str] and [str.strip()] do what [py_int], [py_str] and
    [str_strip] do (other characters can be digits or white space for
    Python, and [int] and [str] refuse numbers of more than 4300
    digits). *)
Definition ascii_text (t : string) : Prop :=
  all_chars (fun c => (nat_of_ascii c <? 128)%nat) t = true.

Definition short_ascii_text (t : string) : Prop :=
  ascii_text t /\ (String.length t <= 4000)%nat.

(** The texts of the children of the pitch elements of a document are
    short ASCII texts. *)
Definition short_ascii_pitches (ns_prefix : string) (root : Element)
    : Prop :=
  Forall
    (fun p =>
       Forall (fun c => forall t, text c = Some t -> short_ascii_text t)
         (children p))
    (findall (qname ns_prefix "pitch") root).

(** A character that is neither an opening nor a closing brace. *)
Definition no_brace (c : ascii) : bool :=
  negb (bool_decide (c = "{"%char \/ c = "}"%char)).

(** [p'] reads as a note that is [shift] semitones above the note of [p],
    where the height of a written note is twelve times its octave plus the
    offset of its letter plus its alteration; a note whose letter and
    alteration leave the octave (C flat, B sharp) is taken in the octave
    that is written, so the result is twelve semitones off for it. A
    marker that the loop skips is still skipped. *)
Definition raised_marker (ns_prefix : string) (shift : Z) (p p' : Element)
    : Prop :=
  match read_pitch ns_prefix (children p) with
  | Return None => read_pitch ns_prefix (children p') = Return None
  | Return (Some (step, alter, octave)) =>
      exists letter b letter' alter' octave' b',
        step = Some letter /\ base_notes !! letter = Some b
        /\ read_pitch ns_prefix (children p')
           = Return (Some (Some letter', alter', octave'))
        /\ base_notes !! letter' = Some b'
        /\ 12 * octave' + b' + alter'
           = 12 * octave + b + alter + shift - 12 * ((b + alter) `div` 12)
  | Raise _ => False
  end.

(** ** Example documents *)

(** An element that holds a text, and an element that holds children. *)
Definition text_element (t x : string) : Element :=
  mkElement t [] (Some x) None [].

Definition parent_element (t : string) (ch : list Element) : Element :=
  mkElement t [] None None ch.

(** [<pitch><step>B</step><alter>-1</alter><octave>4</octave></pitch>] *)
Definition B_flat_4 : Element :=
  parent_element "pitch"
    [text_element "step" "B"; text_element "alter" "-1";
     text_element "octave" "4"].

(** [<pitch><step>B</step><octave>4</octave></pitch>] *)
Definition B_4 : Element :=
  parent_element "pitch"
    [text_element "step" "B"; text_element "octave" "4"].

(** A pitch element with the octave before the step:
    [<pitch><octave>4</octave><step>C</step></pitch>] *)
Definition C_4_octave_first : Element :=
  parent_element "pitch"
    [text_element "octave" "4"; text_element "step" "C"].

(** A pitch element without alter child, and one with an alter child. *)
Definition natural_pitch (step octave : string) : Element :=
  parent_element "pitch"
    [text_element "step" step; text_element "octave" octave].

Definition altered_pitch (step alter octave : string) : Element :=
  parent_element "pitch"
    [text_element "step" step; text_element "alter" alter;
     text_element "octave" octave].

(** A pitch element without octave: [<pitch><step>C</step></pitch>] *)
Definition C_without_octave : Element :=
  parent_element "pitch" [text_element "step" "C"].

(** A score with one part, one measure, a key marker and the given notes. *)
Definition score (fifths : string) (pitches : list Element) : Element :=
  parent_element "score-partwise"
    [parent_element "part"
       [parent_element "measure"
          (parent_element "attributes"
             [parent_element "key" [text_element "fifths" fifths]]
           :: map (fun p => parent_element "note" [p]) pitches)]].

(** A pitch element without octave that holds a key marker:
    [<pitch><step>C</step><key><fifths>..</fifths></key></pitch>] *)
Definition C_without_octave_with_key (fifths : string) : Element :=
  parent_element "pitch"
    [text_element "step" "C";
     parent_element "key" [text_element "fifths" fifths]].


(** A score with a part name, a key marker, a time signature and the
    given notes. *)
Definition sheet (part fifths beats beat_type : string)
    (pitches : list Element) : Element :=
  parent_element "score-partwise"
    [parent_element "part-list"
       [parent_element "score-part" [text_element "part-name" part]];
     parent_element "part"
       [parent_element "measure"
          (parent_element "attributes"
             [parent_element "key" [text_element "fifths" fifths];
              parent_element "time"
                [text_element "beats" beats;
                 text_element "beat-type" beat_type]]
           :: map (fun p => parent_element "note" [p]) pitches)]].

(** * Properties *)

(** ** Tables *)

Ltac table_cases H :=
  apply elem_of_list_to_map_2 in H;
  repeat (apply elem_of_cons in H as [H | H]; [injection H as ? ?; subst |]);
  try (apply elem_of_nil in H; destruct H).

Lemma KEY_SIGNATURES_lookup k :
  -7 <= k <= 7 -> is_Some (KEY_SIGNATURES !! k).
Proof.
  intros Hk.
  assert (k = -7 \/ k = -6 \/ k = -5 \/ k = -4 \/ k = -3 \/ k = -2 \/ k = -1
          \/ k = 0 \/ k = 1 \/ k = 2 \/ k = 3 \/ k = 4 \/ k = 5 \/ k = 6
          \/ k = 7) as Hc by lia.
  repeat (destruct Hc as [-> | Hc]; [by vm_compute; eexists |]).
  subst. by vm_compute; eexists.
Qed.

Lemma KEY_SIGNATURES_range k entry :
  KEY_SIGNATURES !! k = Some entry -> -7 <= k <= 7.
Proof. intros H. unfold KEY_SIGNATURES in H. table_cases H; lia. Qed.

Lemma KEY_SIGNATURES_valid k :
  is_Some (KEY_SIGNATURES !! k) <-> -7 <= k <= 7.
Proof.
  split; [intros [e He]; by eapply KEY_SIGNATURES_range
         | apply KEY_SIGNATURES_lookup].
Qed.

Lemma mod12_cases n :
  let r := n `mod` 12 in
  r = 0 \/ r = 1 \/ r = 2 \/ r = 3 \/ r = 4 \/ r = 5 \/ r = 6 \/ r = 7
  \/ r = 8 \/ r = 9 \/ r = 10 \/ r = 11.
Proof. intros r. pose proof (Z.mod_pos_bound n 12 ltac:(lia)). lia. Qed.

(** ** Pitch algebra *)

Lemma chromatic_to_note_mod n p :
  chromatic_to_note n p = chromatic_to_note (n `mod` 12) p.
Proof. unfold chromatic_to_note. by rewrite Z.mod_mod. Qed.

Lemma chromatic_to_note_returns n p : returns (chromatic_to_note n p).
Proof.
  rewrite chromatic_to_note_mod.
  destruct (mod12_cases n) as [H | H];
    repeat (destruct H as [H | H]); rewrite H; destruct p;
    vm_compute; by eexists.
Qed.

(** C10: [chromatic_to_note] reduces its argument modulo 12 before any
    lookup, so it is defined on every integer: the result at [n] is the
    result at [n mod 12], and no lookup raises. *)
Theorem chromatic_to_note_total (n : Z) (p : bool) :
  chromatic_to_note n p = chromatic_to_note (n `mod` 12) p
  /\ (exists step alter, chromatic_to_note n p = Return (step, alter))
  /\ (forall key, chromatic_to_note n p <> Raise (KeyError key)).
Proof.
  split; [apply chromatic_to_note_mod |].
  destruct (chromatic_to_note_returns n p) as [[s a] Hr].
  split; [by exists s, a | intros key; by rewrite Hr].
Qed.

(** C6: on the classes 0 to 11 [chromatic_to_note] is a right inverse of
    [note_to_chromatic] with an alteration among -1, 0 and 1, and a natural
    class gives its letter with alteration 0 under either policy. *)
Theorem chromatic_to_note_right_inverse (c : Z) (prefer_sharps : bool) :
  0 <= c <= 11 ->
  exists step alter,
    chromatic_to_note c prefer_sharps = Return (step, alter)
    /\ (alter = -1 \/ alter = 0 \/ alter = 1)
    /\ note_to_chromatic (Some step) alter = Return c
    /\ (forall letter, spec_natural_letter c = Some letter ->
          step = letter /\ alter = 0).
Proof.
  intros Hc.
  assert (c = 0 \/ c = 1 \/ c = 2 \/ c = 3 \/ c = 4 \/ c = 5 \/ c = 6
          \/ c = 7 \/ c = 8 \/ c = 9 \/ c = 10 \/ c = 11) as H by lia.
  repeat (destruct H as [-> | H]); try subst c; destruct prefer_sharps;
    (eexists _, _; split; [vm_compute; reflexivity |];
     split; [lia |]; split; [vm_compute; reflexivity |];
     intros letter Hl; vm_compute in Hl; by simplify_eq).
Qed.

Lemma chromatic_to_note_right_inverse_witness :
  exists step alter,
    chromatic_to_note 6 false = Return (step, alter)
    /\ (alter = -1 \/ alter = 0 \/ alter = 1)
    /\ note_to_chromatic (Some step) alter = Return 6
    /\ (forall letter, spec_natural_letter 6 = Some letter ->
          step = letter /\ alter = 0).
Proof. apply (chromatic_to_note_right_inverse 6 false). lia. Defined.

(** C4: for two keys of the table the semitone shift is the difference of
    the tonic classes modulo 12, where the tonic class is the base offset
    of the tonic letter plus 1 for sharp, minus 1 for flat; it lies between
    0 and 11. *)
Theorem calculate_semitone_shift_spec (from_key to_key : Z)
    (from_entry to_entry : string * option string * Z) :
  KEY_SIGNATURES !! from_key = Some from_entry ->
  KEY_SIGNATURES !! to_key = Some to_entry ->
  exists from_tonic to_tonic,
    spec_tonic_class from_entry = Some from_tonic
    /\ spec_tonic_class to_entry = Some to_tonic
    /\ calculate_semitone_shift from_key to_key
       = Return ((to_tonic - from_tonic) `mod` 12)
    /\ 0 <= (to_tonic - from_tonic) `mod` 12 <= 11.
Proof.
  intros Hf Ht. unfold KEY_SIGNATURES in Hf, Ht.
  table_cases Hf; table_cases Ht;
    (eexists _, _; split; [vm_compute; reflexivity |];
     split; [vm_compute; reflexivity |];
     split; [vm_compute; reflexivity | vm_compute; split; discriminate]).
Qed.

Lemma calculate_semitone_shift_spec_witness :
  exists from_tonic to_tonic,
    spec_tonic_class ("C", Some "flat", 7) = Some from_tonic
    /\ spec_tonic_class ("D", None, 2) = Some to_tonic
    /\ calculate_semitone_shift (-7) 2
       = Return ((to_tonic - from_tonic) `mod` 12)
    /\ 0 <= (to_tonic - from_tonic) `mod` 12 <= 11.
Proof.
  apply (calculate_semitone_shift_spec (-7) 2); vm_compute; reflexivity.
Defined.

(** ** [int] and [str] *)

Lemma is_digit_not_space c : is_digit c = true -> is_space c = false.
Proof.
  unfold is_digit, is_space. cbv zeta.
  generalize (nat_of_ascii c). intros n H.
  apply andb_true_iff in H as [H1 H2].
  apply Nat.leb_le in H1. apply Nat.leb_le in H2.
  apply orb_false_iff. split.
  - apply andb_false_iff. right. apply Nat.leb_gt. lia.
  - apply Nat.eqb_neq. lia.
Qed.

Lemma lstrip_no_space s :
  all_chars (fun c => negb (is_space c)) s = true -> lstrip s = s.
Proof.
  destruct s as [| c r]; [done |]. simpl. intros H.
  apply andb_true_iff in H as [H _]. apply negb_true_iff in H. by rewrite H.
Qed.

Lemma rstrip_no_space s :
  all_chars (fun c => negb (is_space c)) s = true -> rstrip s = s.
Proof.
  induction s as [| c r IH]; [done |]. simpl. intros H.
  apply andb_true_iff in H as [Hc Hr]. apply negb_true_iff in Hc.
  rewrite (IH Hr). destruct r; [by rewrite Hc | done].
Qed.

Lemma strip_no_space s :
  all_chars (fun c => negb (is_space c)) s = true -> strip s = s.
Proof.
  intros H. unfold strip. rewrite (lstrip_no_space _ H).
  by apply rstrip_no_space.
Qed.

Lemma digits_no_space s :
  all_chars is_digit s = true ->
  all_chars (fun c => negb (is_space c)) s = true.
Proof.
  induction s as [| c r IH]; [done |]. simpl. intros H.
  apply andb_true_iff in H as [Hc Hr].
  rewrite (is_digit_not_space _ Hc). simpl. by apply IH.
Qed.

Lemma string_of_uint_digits d :
  all_chars is_digit (NilEmpty.string_of_uint d) = true.
Proof. induction d; simpl; try done. Qed.

Lemma literal_digits_digits s :
  all_chars is_digit s = true ->
  forall b, literal_digits b s
            = match s with
              | EmptyString => if b then Some EmptyString else None
              | _ => Some s
              end.
Proof.
  induction s as [| c r IH]; [done |]. simpl. intros H b.
  apply andb_true_iff in H as [Hc Hr]. rewrite Hc, (IH Hr true).
  by destruct r.
Qed.

Lemma unsigned_literal_string_of_uint d :
  unsigned_literal (NilZero.string_of_uint d) = Some (Z.of_uint d).
Proof.
  destruct d; try done;
    unfold unsigned_literal, NilZero.string_of_uint;
    (rewrite literal_digits_digits by apply string_of_uint_digits);
    simpl; by rewrite NilEmpty.usu.
Qed.

Lemma string_of_uint_head d :
  exists c r, NilZero.string_of_uint d = String c r /\ is_digit c = true
              /\ all_chars is_digit r = true.
Proof.
  destruct d; simpl; eexists _, _; (split; [reflexivity |]);
    (split; [reflexivity | try apply string_of_uint_digits]); done.
Qed.

Lemma int_literal_py_str n : int_literal (py_str n) = Some n.
Proof.
  unfold py_str, int_literal.
  pose proof (of_to n) as Hn.
  destruct (Z.to_int n) as [d | d]; simpl in *.
  - destruct (string_of_uint_head d) as (c & r & Hs & Hc & Hr).
    rewrite strip_no_space
      by (rewrite Hs; apply digits_no_space; simpl; by rewrite Hc, Hr).
    pose proof (unsigned_literal_string_of_uint d) as Hu. rewrite Hs in *.
    rewrite !decide_False by (intros ->; done). by rewrite Hu, Hn.
  - destruct (string_of_uint_head d) as (c & r & Hs & Hc & Hr).
    rewrite strip_no_space.
    + rewrite decide_False by done. rewrite decide_True by done.
      rewrite unsigned_literal_string_of_uint. simpl. by rewrite Hn.
    + simpl. rewrite Hs. apply digits_no_space. simpl. by rewrite Hc, Hr.
Qed.

Lemma py_int_py_str n : py_int (Some (py_str n)) = Return n.
Proof. unfold py_int. by rewrite int_literal_py_str. Qed.

Lemma py_str_nonempty n : exists c r, py_str n = String c r.
Proof.
  unfold py_str. destruct (Z.to_int n) as [d | d]; simpl.
  - destruct (string_of_uint_head d) as (c & r & Hs & _). eauto.
  - eauto.
Qed.

Example int_literal_examples :
  int_literal " +1_0 " = Some 10 /\ int_literal "-0012" = Some (-12)
  /\ int_literal "4.0" = None /\ int_literal "1__0" = None
  /\ int_literal "" = None /\ int_literal "- 1" = None
  /\ int_literal "+-1" = None /\ int_literal "1_" = None
  /\ py_str (-12) = "-12" /\ py_str 0 = "0".
Proof. repeat split; vm_compute; reflexivity. Qed.

(** ** Children lists *)

Lemma qname_inj ns a b : qname ns a = qname ns b -> a = b.
Proof.
  unfold qname. induction ns as [| c r IH]; simpl; [done |].
  intros H. injection H as H. by apply IH.
Qed.

Ltac tag_neq :=
  let H := fresh in
  intros H; try symmetry in H; apply qname_inj in H; discriminate H.

Lemma tag_with_text c v : tag (with_text c v) = tag c.
Proof. done. Qed.

Lemma find_Some_tag t ch c : find t ch = Some c -> tag c = t.
Proof.
  induction ch as [| d r IH]; simpl; [done |].
  case_decide; [by intros [= <-] | done].
Qed.

Lemma find_index t ch : find t ch = (index t ch ≫= fun i => ch !! i).
Proof.
  induction ch as [| d r IH]; simpl; [done |].
  case_decide; [done |]. rewrite IH. by destruct (index t r).
Qed.

Lemma find_None_index t ch : find t ch = None <-> index t ch = None.
Proof.
  induction ch as [| d r IH]; simpl; [done |].
  case_decide; [done |]. rewrite IH. by destruct (index t r).
Qed.

Lemma find_None_count t ch : find t ch = None <-> count_tag t ch = 0%nat.
Proof.
  induction ch as [| d r IH]; simpl; [done |].
  case_decide; [done | by rewrite IH].
Qed.

Lemma map_tag_set_text t v ch : map tag (set_text t v ch) = map tag ch.
Proof.
  induction ch as [| d r IH]; simpl; [done |].
  case_decide; simpl; [done | by rewrite IH].
Qed.

Lemma index_map_tag t ch ch' :
  map tag ch = map tag ch' -> index t ch = index t ch'.
Proof.
  revert ch'. induction ch as [| d r IH]; intros [| d' r']; simpl; try done.
  intros [= Hd Hr]. rewrite Hd. case_decide; [done | by rewrite (IH r')].
Qed.

Lemma count_tag_map_tag t ch ch' :
  map tag ch = map tag ch' -> count_tag t ch = count_tag t ch'.
Proof.
  revert ch'. induction ch as [| d r IH]; intros [| d' r']; simpl; try done.
  intros [= Hd Hr]. rewrite Hd. by rewrite (IH r').
Qed.

Lemma find_set_text_eq t v ch :
  find t (set_text t v ch) = (fun c => with_text c v) <$> find t ch.
Proof.
  induction ch as [| d r IH]; simpl; [done |].
  case_decide; simpl.
  - by rewrite decide_True.
  - by rewrite decide_False.
Qed.

Lemma find_set_text_ne t t' v ch :
  t <> t' -> find t' (set_text t v ch) = find t' ch.
Proof.
  intros Hne. induction ch as [| d r IH]; simpl; [done |].
  case_decide; simpl.
  - rewrite !decide_False by congruence. done.
  - case_decide; [done | apply IH].
Qed.

Lemma find_remove_found_ne t t' ch :
  t <> t' -> find t' (remove_found t ch) = find t' ch.
Proof.
  intros Hne. induction ch as [| d r IH]; simpl; [done |].
  case_decide; simpl.
  - by rewrite decide_False by congruence.
  - case_decide; [done | apply IH].
Qed.

Lemma count_tag_remove_found t ch :
  count_tag t (remove_found t ch) = pred (count_tag t ch).
Proof.
  induction ch as [| d r IH]; simpl; [done |].
  case_decide; simpl; [done |]. by rewrite decide_False.
Qed.

Lemma count_tag_remove_found_ne t t' ch :
  t <> t' -> count_tag t' (remove_found t ch) = count_tag t' ch.
Proof.
  intros Hne. induction ch as [| d r IH]; simpl; [done |].
  case_decide; simpl.
  - by rewrite decide_False by congruence.
  - by rewrite IH.
Qed.

Lemma find_insert_child_1_None t a ch :
  tag a = t -> find t ch = None -> (1 <= length ch)%nat ->
  find t (insert_child 1 a ch) = Some a.
Proof.
  intros Ha Hf Hl. destruct ch as [| d r]; simpl in *; [lia |].
  case_decide; [done |]. unfold insert_child. simpl.
  by rewrite decide_True.
Qed.

Lemma find_insert_child_1_ne t a ch :
  tag a <> t -> (1 <= length ch)%nat ->
  find t (insert_child 1 a ch) = find t ch.
Proof.
  intros Ha Hl. destruct ch as [| d r]; simpl in *; [lia |].
  unfold insert_child. simpl. case_decide; [done |].
  rewrite drop_0. by rewrite decide_False.
Qed.

Lemma count_tag_insert_child_1 t a ch :
  (1 <= length ch)%nat ->
  count_tag t (insert_child 1 a ch)
  = ((if decide (tag a = t) then 1 else 0) + count_tag t ch)%nat.
Proof.
  intros Hl. destruct ch as [| d r]; simpl in *; [lia |].
  unfold insert_child. simpl. rewrite drop_0. simpl. lia.
Qed.

Lemma find_Some_length t ch c : find t ch = Some c -> (1 <= length ch)%nat.
Proof. destruct ch; simpl; [done | lia]. Qed.

(** ** Pitch classes and shifts *)

Lemma note_to_chromatic_range step alter pc :
  note_to_chromatic step alter = Return pc -> 0 <= pc <= 11.
Proof.
  unfold note_to_chromatic, getitem. destruct step as [s |]; [| done].
  destruct (base_notes !! s); simpl; [| done]. intros [= <-].
  pose proof (Z.mod_pos_bound (z + alter) 12). lia.
Qed.

Lemma note_to_chromatic_Some step alter pc :
  note_to_chromatic step alter = Return pc ->
  exists letter b,
    step = Some letter /\ spec_base_offset letter = Some b
    /\ pc = (b + alter) `mod` 12.
Proof.
  unfold note_to_chromatic, getitem. destruct step as [s |]; [| done].
  destruct (base_notes !! s) as [b |] eqn:Hb; simpl; [| done].
  intros [= <-]. exists s, b. unfold base_notes in Hb.
  table_cases Hb; done.
Qed.

Lemma note_to_chromatic_alter_mod step alter alter' :
  alter `mod` 12 = alter' `mod` 12 ->
  note_to_chromatic step alter = note_to_chromatic step alter'.
Proof.
  intros H. unfold note_to_chromatic. destruct step as [s |]; [| done].
  destruct (getitem PyStr base_notes s) as [| b]; simpl; [done |].
  f_equal. rewrite (Z.add_mod b alter), (Z.add_mod b alter') by lia.
  by rewrite H.
Qed.

Lemma chromatic_to_note_inverse c p :
  0 <= c <= 11 ->
  exists step alter,
    chromatic_to_note c p = Return (step, alter)
    /\ (alter = -1 \/ alter = 0 \/ alter = 1)
    /\ note_to_chromatic (Some step) alter = Return c.
Proof.
  intros Hc.
  assert (c = 0 \/ c = 1 \/ c = 2 \/ c = 3 \/ c = 4 \/ c = 5 \/ c = 6
          \/ c = 7 \/ c = 8 \/ c = 9 \/ c = 10 \/ c = 11) as H by lia.
  repeat (destruct H as [-> | H]); try subst c; destruct p;
    (eexists _, _; split; [vm_compute; reflexivity |];
     split; [lia | vm_compute; reflexivity]).
Qed.

Lemma tonic_of_range key : 0 <= tonic_of key <= 11.
Proof.
  unfold tonic_of. destruct (KEY_SIGNATURES !! key) as [sig |]; [| lia].
  destruct (note_to_chromatic _ _) as [| t] eqn:Ht; [lia |].
  by apply note_to_chromatic_range in Ht.
Qed.

Lemma calculate_semitone_shift_tonic from_key to_key :
  -7 <= from_key <= 7 -> -7 <= to_key <= 7 ->
  calculate_semitone_shift from_key to_key
  = Return ((tonic_of to_key - tonic_of from_key) `mod` 12).
Proof.
  intros Hf Ht.
  apply KEY_SIGNATURES_lookup in Hf as [ef Hf].
  apply KEY_SIGNATURES_lookup in Ht as [et Ht].
  unfold KEY_SIGNATURES in Hf, Ht.
  table_cases Hf; table_cases Ht; vm_compute; reflexivity.
Qed.

Lemma calculate_semitone_shift_same key :
  -7 <= key <= 7 -> calculate_semitone_shift key key = Return 0.
Proof.
  intros Hk. rewrite calculate_semitone_shift_tonic by done.
  by rewrite Z.sub_diag.
Qed.

Lemma kept_spelling_spec prefer_sharps step alter pc :
  note_to_chromatic (Some step) alter = Return pc ->
  alter = -1 \/ alter = 0 \/ alter = 1 ->
  chromatic_to_note pc prefer_sharps = Return (step, alter)
  <-> kept_spelling prefer_sharps step alter = true.
Proof.
  unfold note_to_chromatic, getitem.
  destruct (base_notes !! step) as [b |] eqn:Hb; [| done]. cbn [bind].
  intros [= <-] Ha. unfold base_notes in Hb.
  table_cases Hb; destruct Ha as [-> | [-> | ->]]; destruct prefer_sharps;
    vm_compute; split; congruence.
Qed.

Lemma calculate_semitone_shift_raises from_key to_key :
  ~ -7 <= from_key <= 7 ->
  calculate_semitone_shift from_key to_key = Raise (KeyError (PyInt from_key)).
Proof.
  intros Hf. unfold calculate_semitone_shift, getitem.
  destruct (KEY_SIGNATURES !! from_key) as [e |] eqn:He; [| done].
  apply KEY_SIGNATURES_range in He. lia.
Qed.

(** ** The loop body on one pitch element *)

Section PitchElement.

Context (ns : string).

Local Abbreviation step_tag := (qname ns "step").
Local Abbreviation alter_tag := (qname ns "alter").
Local Abbreviation octave_tag := (qname ns "octave").

Lemma read_pitch_skipped ch :
  find step_tag ch = None \/ find octave_tag ch = None ->
  read_pitch ns ch = Return None.
Proof.
  unfold read_pitch. intros [-> | ->]; [done |].
  by destruct (find step_tag ch).
Qed.

Lemma read_pitch_Some ch cur :
  read_pitch ns ch = Return (Some cur) ->
  exists s o, find step_tag ch = Some s /\ find octave_tag ch = Some o
              /\ cur.1.1 = text s.
Proof.
  unfold read_pitch.
  destruct (find step_tag ch) as [s |]; [| done].
  destruct (find octave_tag ch) as [o |]; [| done].
  intros H. exists s, o. split; [done |]. split; [done |].
  destruct (match find alter_tag ch with Some _ => _ | None => _ end);
    simpl in H; [done |].
  destruct (py_int (text o)); simpl in H; [done |]. by injection H as <-.
Qed.

Lemma read_pitch_None ch :
  read_pitch ns ch = Return None ->
  find step_tag ch = None \/ find octave_tag ch = None.
Proof.
  unfold read_pitch.
  destruct (find step_tag ch) as [s |]; [| by left].
  destruct (find octave_tag ch) as [o |]; [| by right].
  destruct (match find alter_tag ch with Some _ => _ | None => _ end);
    simpl; [done |].
  by destruct (py_int (text o)).
Qed.

(** What [update_pitch] leaves in the element. *)
Lemma update_pitch_step new ch s :
  find step_tag ch = Some s ->
  find step_tag (update_pitch ns new ch)
  = Some (with_text s (Some new.1.1)).
Proof.
  intros Hs. destruct new as [[l a] o]. unfold update_pitch. simpl.
  assert (find step_tag
            (set_text octave_tag (Some (py_str o))
               (set_text step_tag (Some l) ch))
          = Some (with_text s (Some l))) as Hw.
  { rewrite find_set_text_ne by tag_neq.
    by rewrite find_set_text_eq, Hs. }
  case_decide.
  - destruct (find alter_tag ch); [| done].
    by rewrite find_remove_found_ne by tag_neq.
  - destruct (find alter_tag ch).
    + by rewrite find_set_text_ne by tag_neq.
    + rewrite find_insert_child_1_ne; [done | simpl; tag_neq |].
      by eapply find_Some_length.
Qed.

Lemma update_pitch_octave new ch o :
  find octave_tag ch = Some o ->
  find octave_tag (update_pitch ns new ch)
  = Some (with_text o (Some (py_str new.2))).
Proof.
  intros Ho. destruct new as [[l a] n]. unfold update_pitch. simpl.
  assert (find octave_tag
            (set_text octave_tag (Some (py_str n))
               (set_text step_tag (Some l) ch))
          = Some (with_text o (Some (py_str n)))) as Hw.
  { rewrite find_set_text_eq.
    by rewrite find_set_text_ne, Ho by tag_neq. }
  case_decide.
  - destruct (find alter_tag ch); [| done].
    by rewrite find_remove_found_ne by tag_neq.
  - destruct (find alter_tag ch).
    + by rewrite find_set_text_ne by tag_neq.
    + rewrite find_insert_child_1_ne; [done | simpl; tag_neq |].
      by eapply find_Some_length.
Qed.

Lemma written_alter_count l o ch :
  count_tag alter_tag
    (set_text octave_tag o (set_text step_tag l ch))
  = count_tag alter_tag ch.
Proof.
  apply count_tag_map_tag. by rewrite !map_tag_set_text.
Qed.

Lemma written_alter_find l o ch :
  find alter_tag (set_text octave_tag o (set_text step_tag l ch))
  = find alter_tag ch.
Proof. by rewrite !find_set_text_ne by tag_neq. Qed.

Lemma update_pitch_alter_count new ch s :
  find step_tag ch = Some s ->
  (count_tag alter_tag ch <= 1)%nat ->
  (count_tag alter_tag (update_pitch ns new ch) <= 1)%nat.
Proof.
  intros Hs Hc. destruct new as [[l a] n]. unfold update_pitch.
  case_decide.
  - destruct (find alter_tag ch); [| by rewrite written_alter_count].
    rewrite count_tag_remove_found, written_alter_count. lia.
  - destruct (find alter_tag ch) eqn:Ha.
    + rewrite (count_tag_map_tag _ _ ch); [done |].
      by rewrite !map_tag_set_text.
    + rewrite count_tag_insert_child_1.
      * rewrite written_alter_count.
        apply find_None_count in Ha. rewrite Ha. simpl.
        by rewrite decide_True.
      * erewrite <- length_map, !map_tag_set_text, length_map.
        by eapply find_Some_length.
Qed.

Lemma update_pitch_alter new ch s :
  find step_tag ch = Some s ->
  (count_tag alter_tag ch <= 1)%nat ->
  match find alter_tag (update_pitch ns new ch) with
  | Some a' => new.1.2 <> 0 /\ text a' = Some (py_str new.1.2)
  | None => new.1.2 = 0
  end.
Proof.
  intros Hs Hc. destruct new as [[l a] n]. unfold update_pitch. simpl.
  case_decide as Hz.
  - destruct (find alter_tag ch) eqn:Ha.
    + assert (find alter_tag
                (remove_found alter_tag
                   (set_text octave_tag (Some (py_str n))
                      (set_text step_tag (Some l) ch))) = None) as ->; [| done].
      apply find_None_count.
      rewrite count_tag_remove_found, written_alter_count. lia.
    + by rewrite written_alter_find, Ha.
  - destruct (find alter_tag ch) eqn:Ha.
    + rewrite find_set_text_eq, written_alter_find, Ha. done.
    + rewrite find_insert_child_1_None; [done | done | |].
      * by rewrite written_alter_find.
      * erewrite <- length_map, !map_tag_set_text, length_map.
        by eapply find_Some_length.
Qed.

(** Reading an element back after the update gives what was written,
    when the element has at most one alter child. *)
Lemma read_pitch_update_pitch new ch s o :
  find step_tag ch = Some s -> find octave_tag ch = Some o ->
  (count_tag alter_tag ch <= 1)%nat ->
  read_pitch ns (update_pitch ns new ch)
  = Return (Some (Some new.1.1, new.1.2, new.2)).
Proof.
  intros Hs Ho Hc. unfold read_pitch.
  rewrite (update_pitch_step _ _ _ Hs), (update_pitch_octave _ _ _ Ho).
  pose proof (update_pitch_alter new ch s Hs Hc) as Ha.
  destruct (find alter_tag (update_pitch ns new ch)) as [a' |].
  - destruct Ha as [Hz Ht]. rewrite Ht.
    destruct (py_str_nonempty new.1.2) as (c & r & Hr). rewrite Hr, <- Hr.
    rewrite py_int_py_str. simpl. rewrite py_int_py_str. simpl.
    by destruct new as [[? ?] ?].
  - simpl. rewrite py_int_py_str. simpl. rewrite Ha.
    by destruct new as [[? ?] ?].
Qed.

End PitchElement.

Lemma remove_found_None t ch : find t ch = None -> remove_found t ch = ch.
Proof.
  induction ch as [| d r IH]; simpl; [done |].
  case_decide; [done |]. intros Hf. by rewrite IH.
Qed.

Lemma index_Some_0 t ch :
  index t ch = Some 0%nat -> exists c r, ch = c :: r /\ tag c = t.
Proof.
  destruct ch as [| c r]; simpl; [done |].
  case_decide; [by eauto |]. by destruct (index t r).
Qed.

Section Transposition.

Context (ns : string) (semitone_shift : Z) (prefer_sharps : bool).

Local Abbreviation step_tag := (qname ns "step").
Local Abbreviation alter_tag := (qname ns "alter").
Local Abbreviation octave_tag := (qname ns "octave").

Lemma transpose_pitch_class step alter octave pc :
  note_to_chromatic step alter = Return pc ->
  exists new_step new_alter,
    transpose_pitch semitone_shift prefer_sharps (step, alter, octave)
    = Return (new_step, new_alter,
              octave + (pc + semitone_shift) `div` 12)
    /\ chromatic_to_note ((pc + semitone_shift) `mod` 12) prefer_sharps
       = Return (new_step, new_alter)
    /\ (new_alter = -1 \/ new_alter = 0 \/ new_alter = 1)
    /\ note_to_chromatic (Some new_step) new_alter
       = Return ((pc + semitone_shift) `mod` 12).
Proof.
  intros Hpc. unfold transpose_pitch. rewrite Hpc. simpl.
  destruct (chromatic_to_note_inverse
              ((pc + semitone_shift) `mod` 12) prefer_sharps)
    as (l & a & Hn & Ha & Hi).
  { pose proof (Z.mod_pos_bound (pc + semitone_shift) 12). lia. }
  exists l, a. rewrite Hn. done.
Qed.

Lemma transpose_pitch_raises step alter octave e :
  note_to_chromatic step alter = Raise e ->
  transpose_pitch semitone_shift prefer_sharps (step, alter, octave) = Raise e.
Proof. intros H. unfold transpose_pitch. by rewrite H. Qed.

Lemma pitch_edit_skipped ch :
  read_pitch ns ch = Return None ->
  pitch_edit ns semitone_shift prefer_sharps ch = Return None.
Proof. intros H. unfold pitch_edit. by rewrite H. Qed.

Lemma pitch_edit_read ch step alter octave pc :
  read_pitch ns ch = Return (Some (step, alter, octave)) ->
  note_to_chromatic step alter = Return pc ->
  exists new_step new_alter,
    pitch_edit ns semitone_shift prefer_sharps ch
    = Return (Some (new_step, new_alter,
                    octave + (pc + semitone_shift) `div` 12))
    /\ chromatic_to_note ((pc + semitone_shift) `mod` 12) prefer_sharps
       = Return (new_step, new_alter)
    /\ (new_alter = -1 \/ new_alter = 0 \/ new_alter = 1)
    /\ note_to_chromatic (Some new_step) new_alter
       = Return ((pc + semitone_shift) `mod` 12).
Proof.
  intros Hr Hpc. unfold pitch_edit. rewrite Hr. cbn [bind].
  destruct (transpose_pitch_class step alter octave pc Hpc)
    as (l & a & Ht & Hrest).
  exists l, a. by rewrite Ht.
Qed.

Lemma pitch_edit_Some ch new :
  pitch_edit ns semitone_shift prefer_sharps ch = Return (Some new) ->
  exists step alter octave pc,
    read_pitch ns ch = Return (Some (step, alter, octave))
    /\ note_to_chromatic step alter = Return pc.
Proof.
  unfold pitch_edit.
  destruct (read_pitch ns ch) as [| [[[st a] o] |]]; cbn [bind]; try done.
  intros H. exists st, a, o.
  destruct (note_to_chromatic st a) as [e | pc] eqn:Hpc; [| by eauto].
  by rewrite (transpose_pitch_raises _ _ _ _ Hpc) in H.
Qed.

Lemma pitch_edit_None ch :
  pitch_edit ns semitone_shift prefer_sharps ch = Return None ->
  read_pitch ns ch = Return None.
Proof.
  unfold pitch_edit.
  destruct (read_pitch ns ch) as [| [cur |]]; simpl; try done.
  by destruct (transpose_pitch _ _ cur).
Qed.

End Transposition.



(** ** The alteration marker *)

Lemma alter_after_step_first ns a s r o :
  tag s = qname ns "step" -> tag a = qname ns "alter" ->
  find (qname ns "octave") r = Some o ->
  alter_after_step ns (s :: a :: r).
Proof.
  intros Hs Ha Ho. unfold alter_after_step.
  apply find_Some_length in Ho as Hl.
  destruct (index (qname ns "octave") r) as [j |] eqn:Hj.
  - exists 0%nat, (S (S j)). simpl.
    rewrite (decide_True _ _ Hs).
    rewrite decide_False by (rewrite Hs; tag_neq).
    rewrite (decide_True _ _ Ha).
    rewrite decide_False by (rewrite Hs; tag_neq).
    rewrite decide_False by (rewrite Ha; tag_neq).
    rewrite Hj. simpl. repeat split; lia.
  - apply find_None_index in Hj. congruence.
Qed.

Lemma insert_child_1_before_step ns a ch i :
  tag a = qname ns "alter" ->
  index (qname ns "alter") ch = None ->
  index (qname ns "step") ch = Some (S i) ->
  index (qname ns "alter") (insert_child 1 a ch) = Some 1%nat
  /\ index (qname ns "step") (insert_child 1 a ch) = Some (S (S i))
  /\ ~ alter_after_step ns (insert_child 1 a ch).
Proof.
  intros Ha Hn Hs. destruct ch as [| w ws]; [done |].
  cbn [index] in Hn, Hs.
  destruct (decide (tag w = qname ns "alter")) as [| Hwa]; [done |].
  destruct (decide (tag w = qname ns "step")) as [| Hws]; [done |].
  destruct (index (qname ns "step") ws) as [k |] eqn:Hk; [| done].
  cbn in Hs. injection Hs as ->.
  assert (insert_child 1 a (w :: ws) = w :: a :: ws) as ->.
  { unfold insert_child. cbn. by rewrite drop_0. }
  assert (index (qname ns "alter") (w :: a :: ws) = Some 1%nat) as Hia.
  { cbn [index]. rewrite decide_False by done.
    by rewrite decide_True by done. }
  assert (index (qname ns "step") (w :: a :: ws) = Some (S (S i))) as His.
  { cbn [index]. rewrite decide_False by done.
    rewrite decide_False by (rewrite Ha; tag_neq). by rewrite Hk. }
  split; [done |]. split; [done |].
  intros (i' & j & Hs' & Ha' & _). rewrite His in Hs'. rewrite Hia in Ha'.
  injection Hs' as <-. discriminate Ha'.
Qed.

(** C7: a natural note loses the alter child that [find] returned and the
    text of an existing alter child is overwritten, as the claim says, and
    a B flat that lands on class 0 becomes a C without an alter child. But
    a missing alter child is created at the fixed index 1, where the
    comment in the code says after the step: that is right after the step
    and before the octave only when the step is the first child, and when
    the step is at a later index the new alter child is before the
    step. *)
Theorem alter_marker_update (ns : string) (new_step : string)
    (new_alter new_octave : Z) (pitch_elem : list Element) (s o : Element) :
  find (qname ns "step") pitch_elem = Some s ->
  find (qname ns "octave") pitch_elem = Some o ->
  let updated :=
    update_pitch ns (new_step, new_alter, new_octave) pitch_elem in
  let written :=
    set_text (qname ns "octave") (Some (py_str new_octave))
      (set_text (qname ns "step") (Some new_step) pitch_elem) in
  let new_child :=
    mkElement (qname ns "alter") [] (Some (py_str new_alter)) None [] in
  (new_alter = 0 ->
     updated = remove_found (qname ns "alter") written
     /\ count_tag (qname ns "alter") updated
        = pred (count_tag (qname ns "alter") pitch_elem)
     /\ ((count_tag (qname ns "alter") pitch_elem <= 1)%nat ->
         find (qname ns "alter") updated = None))
  /\ (new_alter <> 0 -> find (qname ns "alter") pitch_elem = None ->
      updated = insert_child 1 new_child written
      /\ updated !! 1%nat = Some new_child
      /\ (index (qname ns "step") pitch_elem = Some 0%nat ->
          alter_after_step ns updated)
      /\ (forall i,
            index (qname ns "step") pitch_elem = Some (S i) ->
            index (qname ns "alter") updated = Some 1%nat
            /\ index (qname ns "step") updated = Some (S (S i))
            /\ ~ alter_after_step ns updated))
  /\ (new_alter <> 0 ->
      forall a, find (qname ns "alter") pitch_elem = Some a ->
        updated = set_text (qname ns "alter") (Some (py_str new_alter)) written
        /\ find (qname ns "alter") updated
           = Some (with_text a (Some (py_str new_alter)))
        /\ map tag updated = map tag pitch_elem)
  /\ (forall shift prefer_sharps octave p,
        children p = pitch_elem ->
        read_pitch ns pitch_elem = Return (Some (Some "B", -1, octave)) ->
        (10 + shift) `mod` 12 = 0 ->
        (count_tag (qname ns "alter") pitch_elem <= 1)%nat ->
        exists p',
          rewrite_pitch ns shift prefer_sharps p = Return p'
          /\ find (qname ns "alter") (children p') = None
          /\ find (qname ns "step") (children p')
             = Some (with_text s (Some "C"))).
Proof.
  intros Hs Ho updated written new_child.
  assert (1 <= length written)%nat as Hlen.
  { subst written. erewrite <- length_map, !map_tag_set_text, length_map.
    by eapply find_Some_length. }
  split; [| split; [| split]].
  - intros Hz. subst updated. unfold update_pitch.
    rewrite decide_True by done. fold written.
    destruct (find (qname ns "alter") pitch_elem) eqn:Ha.
    + split; [done |]. rewrite count_tag_remove_found.
      subst written. rewrite written_alter_count. split; [done |].
      intros Hc. apply find_None_count.
      rewrite count_tag_remove_found, written_alter_count. lia.
    + assert (find (qname ns "alter") written = None) as Hw.
      { subst written. by rewrite written_alter_find. }
      rewrite (remove_found_None _ _ Hw). split; [done |].
      subst written. rewrite written_alter_count.
      apply find_None_count in Ha as Hc. rewrite Hc. done.
  - intros Hz Ha. subst updated. unfold update_pitch.
    rewrite decide_False by done. rewrite Ha. fold written.
    split; [done |]. split; [| split].
    + destruct written as [| w ws]; [simpl in Hlen; lia | done].
    + intros Hi. apply index_Some_0 in Hi as (c & r & -> & Hc).
      subst written. simpl. rewrite (decide_True _ _ Hc). simpl.
      rewrite decide_False by (rewrite Hc; tag_neq).
      unfold insert_child. simpl. rewrite drop_0.
      simpl in Ho. rewrite decide_False in Ho by (rewrite Hc; tag_neq).
      eapply (alter_after_step_first ns _ _ _
                (with_text o (Some (py_str new_octave)))); [done | done |].
      by rewrite find_set_text_eq, Ho.
    + intros i Hi.
      assert (map tag written = map tag pitch_elem) as Ht
        by (subst written; by rewrite !map_tag_set_text).
      apply insert_child_1_before_step; [done | |].
      * rewrite (index_map_tag _ _ _ Ht). by apply find_None_index.
      * by rewrite (index_map_tag _ _ _ Ht).
  - intros Hz a Ha. subst updated. unfold update_pitch.
    rewrite decide_False by done. rewrite Ha. fold written.
    split; [done |]. split.
    + subst written. by rewrite find_set_text_eq, written_alter_find, Ha.
    + subst written. by rewrite !map_tag_set_text.
  - intros shift ps octave p Hp Hr Hm Hc.
    destruct (pitch_edit_read ns shift ps _ _ _ _ 10 Hr eq_refl)
      as (l & a & He & Hn & _).
    rewrite Hm in Hn. vm_compute in Hn. injection Hn as <- <-.
    exists (with_children p
              (update_pitch ns ("C", 0, octave + (10 + shift) `div` 12)
                 pitch_elem)).
    unfold rewrite_pitch. rewrite Hp, He. cbn [bind apply_edit children
      with_children].
    split; [reflexivity |]. split.
    + pose proof (update_pitch_alter ns
                    ("C", 0, octave + (10 + shift) `div` 12) _ _ Hs Hc) as Hu.
      by destruct (find (qname ns "alter") (update_pitch ns _ pitch_elem))
        as [a' |]; [destruct Hu |].
    + by rewrite (update_pitch_step ns _ _ _ Hs).
Qed.

Lemma alter_marker_update_witness :
  find (qname "" "step") (children B_flat_4) = Some (text_element "step" "B")
  /\ find (qname "" "octave") (children B_flat_4)
     = Some (text_element "octave" "4")
  /\ update_pitch "" ("C", 0, 5) (children B_flat_4)
     = [text_element "step" "C"; text_element "octave" "5"]
  /\ find (qname "" "step") (children C_4_octave_first)
     = Some (text_element "step" "C")
  /\ find (qname "" "octave") (children C_4_octave_first)
     = Some (text_element "octave" "4")
  /\ update_pitch "" ("D", -1, 4) (children C_4_octave_first)
     = [text_element "octave" "4"; text_element "alter" "-1";
        text_element "step" "D"]
  /\ index (qname "" "alter")
       (update_pitch "" ("D", -1, 4) (children C_4_octave_first))
     = Some 1%nat
  /\ index (qname "" "step")
       (update_pitch "" ("D", -1, 4) (children C_4_octave_first))
     = Some 2%nat
  /\ ~ alter_after_step ""
         (update_pitch "" ("D", -1, 4) (children C_4_octave_first)).
Proof.
  split; [reflexivity |]. split; [reflexivity |]. split.
  { destruct (alter_marker_update "" "C" 0 5 (children B_flat_4)
                (text_element "step" "B") (text_element "octave" "4")
                eq_refl eq_refl) as [H _].
    destruct (H eq_refl) as [-> _]. reflexivity. }
  split; [reflexivity |]. split; [reflexivity |].
  destruct (alter_marker_update "" "D" (-1) 4 (children C_4_octave_first)
              (text_element "step" "C") (text_element "octave" "4")
              eq_refl eq_refl) as (_ & H & _).
  destruct (H ltac:(lia) eq_refl) as (Hu & _ & _ & Hb).
  destruct (Hb 0%nat eq_refl) as (Ha & Hs & Hn).
  split; [rewrite Hu; reflexivity |]. split; [exact Ha |].
  split; [exact Hs | exact Hn].
Defined.

(** The failing input of C7 in a transposition: from C major to D flat
    major (shift 1, flats) the C of a pitch element with the octave before
    the step becomes a D flat, and the new alter child, at index 1, is
    before the step and after the octave. *)
Lemma alter_marker_counterexample :
  check_keys (Some 0) (-5) = Return (1, false)
  /\ find (qname "" "alter") (children C_4_octave_first) = None
  /\ rewrite_pitch "" 1 false C_4_octave_first
     = Return (parent_element "pitch"
                 [text_element "octave" "4"; text_element "alter" "-1";
                  text_element "step" "D"])
  /\ ~ alter_after_step ""
         [text_element "octave" "4"; text_element "alter" "-1";
          text_element "step" "D"].
Proof.
  split; [vm_compute; reflexivity |]. split; [reflexivity |].
  split; [vm_compute; reflexivity |].
  intros (i & j & Hs & Ha & _). vm_compute in Hs, Ha. congruence.
Qed.

(** ** Trees *)

Lemma Element_ind' (P : Element -> Prop) :
  (forall tg at_ tx tl ch, Forall P ch -> P (mkElement tg at_ tx tl ch)) ->
  forall e, P e.
Proof.
  intros H. fix IH 1. intros [tg at_ tx tl ch]. apply H.
  induction ch as [| c r IHr]; constructor; [apply IH | apply IHr].
Qed.

Lemma mapM_Forall2 {A B} (f : A -> exc B) l l' :
  mapM f l = Return l' <-> Forall2 (fun x y => f x = Return y) l l'.
Proof.
  revert l'. induction l as [| x r IH]; intros l'; simpl.
  - split; [intros [= <-]; constructor | by inversion 1].
  - split.
    + destruct (f x) as [| y] eqn:Hx; simpl; [done |].
      destruct (mapM f r) as [| ys] eqn:Hr; simpl; [done |].
      intros [= <-]. constructor; [done | by apply IH].
    + inversion 1 as [| ? y ? ys Hx Hr]; subst. rewrite Hx. simpl.
      apply IH in Hr. by rewrite Hr.
Qed.

Lemma mapM_id {A} (f : A -> exc A) l :
  Forall (fun x => f x = Return x) l -> mapM f l = Return l.
Proof.
  intros H. apply mapM_Forall2. induction H; constructor; done.
Qed.

Lemma mapM_returns {A B} (f : A -> exc B) l :
  Forall (fun x => returns (f x)) l -> returns (mapM f l).
Proof.
  induction 1 as [| x r [y Hx] _ [ys IH]]; simpl.
  - by eexists.
  - rewrite Hx. simpl. rewrite IH. simpl. by eexists.
Qed.

Lemma mapM_outcome {A B C D} (f : A -> exc B) (g : C -> exc D) l l' :
  Forall2 (fun x y => outcome (f x) = outcome (g y)) l l' ->
  outcome (mapM f l) = outcome (mapM g l').
Proof.
  induction 1 as [| x y r r' Hx _ IH]; simpl; [done |].
  unfold outcome in *.
  destruct (f x), (g y); simpl in *; try done.
  destruct (mapM f r), (mapM g r'); simpl in *; done.
Qed.

Lemma flat_map_nil {A B} (f : A -> list B) l :
  List.flat_map f l = [] <-> Forall (fun x => f x = []) l.
Proof.
  induction l as [| x r IH]; simpl.
  - split; [constructor | done].
  - rewrite app_nil. rewrite IH. split.
    + intros [? ?]. by constructor.
    + by inversion 1.
Qed.

Lemma flat_map_Forall_eq {A B} (f g : A -> list B) l :
  Forall (fun x => f x = g x) l -> List.flat_map f l = List.flat_map g l.
Proof. induction 1 as [| x r Hx _ IH]; simpl; [done |]. by rewrite Hx, IH. Qed.

Lemma flat_map_map_r {A B C} (f : A -> list B) (g : B -> C) l :
  List.flat_map (fun x => map g (f x)) l = map g (List.flat_map f l).
Proof.
  induction l as [| x r IH]; simpl; [done |]. by rewrite map_app, IH.
Qed.

Lemma flat_map_map_l {A B C} (f : B -> list C) (g : A -> B) l :
  List.flat_map f (map g l) = List.flat_map (fun x => f (g x)) l.
Proof. induction l as [| x r IH]; simpl; [done |]. by rewrite IH. Qed.

Lemma iter_unfold t e :
  iter t e
  = ((if decide (tag e = t) then [e] else [])
     ++ List.flat_map (iter t) (children e))%list.
Proof. by destruct e. Qed.

Lemma flat_iter_set_text t t' v l :
  t <> t' ->
  List.flat_map (iter t') (set_text t v l) = List.flat_map (iter t') l.
Proof.
  intros Hne. induction l as [| c r IH]; simpl; [done |].
  case_decide as Hc; simpl; [| by rewrite IH].
  f_equal. rewrite !iter_unfold. simpl.
  by rewrite !decide_False by congruence.
Qed.

Lemma flat_iter_remove_found t t' l :
  List.flat_map (iter t') l = [] ->
  List.flat_map (iter t') (remove_found t l) = [].
Proof.
  induction l as [| c r IH]; simpl; [done |].
  intros [Hc Hr]%app_nil. case_decide; [done |]. simpl.
  by rewrite Hc, IH.
Qed.

Lemma flat_iter_insert_child t i a l :
  iter t a = [] -> List.flat_map (iter t) l = [] ->
  List.flat_map (iter t) (insert_child i a l) = [].
Proof.
  intros Ha Hl. unfold insert_child. rewrite flat_map_app. simpl.
  rewrite Ha. simpl. rewrite <- flat_map_app, take_drop. done.
Qed.

(** ** The loop over the key markers *)

Section KeyMarkers.

Context (ns : string) (target_key : Z).

Local Abbreviation pitch_tag := (qname ns "pitch").
Local Abbreviation uk := (update_keys ns target_key).

Lemma update_keys_unfold e :
  uk e
  = with_children e
      (if decide (tag e = qname ns "key")
       then set_text (qname ns "fifths") (Some (py_str target_key))
              (map uk (children e))
       else map uk (children e)).
Proof. by destruct e. Qed.

Lemma tag_update_keys e : tag (uk e) = tag e.
Proof. by destruct e. Qed.

Lemma text_update_keys e : text (uk e) = text e.
Proof. by destruct e. Qed.

Lemma map_tag_update_keys l : map tag (map uk l) = map tag l.
Proof.
  induction l as [| c r IH]; simpl; [done |].
  by rewrite tag_update_keys, IH.
Qed.

Lemma map_tag_children_update_keys e :
  map tag (children (uk e)) = map tag (children e).
Proof.
  rewrite update_keys_unfold. simpl. case_decide.
  - by rewrite map_tag_set_text, map_tag_update_keys.
  - by rewrite map_tag_update_keys.
Qed.

Lemma find_map_update_keys t l : find t (map uk l) = uk <$> find t l.
Proof.
  induction l as [| c r IH]; simpl; [done |].
  rewrite tag_update_keys. case_decide; [done | apply IH].
Qed.

(** The children that [read_pitch] looks at are found at the same places
    and hold the same texts after the loop over the key markers. *)
Lemma find_children_update_keys t e :
  t <> qname ns "fifths" ->
  text <$> find t (children (uk e)) = text <$> find t (children e).
Proof.
  intros Ht. rewrite update_keys_unfold. simpl.
  assert (text <$> find t (map uk (children e))
          = text <$> find t (children e)) as Hm.
  { rewrite find_map_update_keys. destruct (find t (children e)); simpl;
      [by rewrite text_update_keys | done]. }
  case_decide; [| done]. by rewrite find_set_text_ne by done.
Qed.

Lemma read_pitch_update_keys e :
  read_pitch ns (children (uk e)) = read_pitch ns (children e).
Proof.
  unfold read_pitch.
  pose proof (find_children_update_keys (qname ns "step") e
                ltac:(tag_neq)) as Hs.
  pose proof (find_children_update_keys (qname ns "alter") e
                ltac:(tag_neq)) as Ha.
  pose proof (find_children_update_keys (qname ns "octave") e
                ltac:(tag_neq)) as Ho.
  destruct (find (qname ns "step") (children (uk e))) as [s' |],
    (find (qname ns "step") (children e)) as [s |]; try done.
  destruct (find (qname ns "octave") (children (uk e))) as [o' |],
    (find (qname ns "octave") (children e)) as [o |]; try done.
  destruct (find (qname ns "alter") (children (uk e))) as [a' |],
    (find (qname ns "alter") (children e)) as [a |]; try done;
    simpl in *; simplify_eq;
    repeat match goal with
           | H : text _ = text _ |- _ => rewrite H; clear H
           end; done.
Qed.

Lemma iter_update_keys e : iter pitch_tag (uk e) = map uk (iter pitch_tag e).
Proof.
  induction e as [tg at_ tx tl ch IH] using Element_ind'.
  rewrite (iter_unfold _ (uk _)), tag_update_keys, iter_unfold.
  rewrite map_app. f_equal; [by case_decide |].
  rewrite update_keys_unfold. simpl.
  assert (List.flat_map (iter pitch_tag) (map uk ch)
          = map uk (List.flat_map (iter pitch_tag) ch)) as Hm.
  { rewrite flat_map_map_l, <- flat_map_map_r.
    by apply flat_map_Forall_eq. }
  case_decide; [| done].
  by rewrite flat_iter_set_text by tag_neq.
Qed.

Lemma findall_update_keys root :
  findall pitch_tag (with_children root (map uk (children root)))
  = map uk (findall pitch_tag root).
Proof.
  unfold findall. simpl. rewrite flat_map_map_l, <- flat_map_map_r.
  apply flat_map_Forall_eq, Forall_forall. intros c _. apply iter_update_keys.
Qed.

Lemma find_None_update_keys t e :
  t <> qname ns "fifths" ->
  find t (children e) = None -> find t (children (uk e)) = None.
Proof.
  intros Ht Hf. pose proof (find_children_update_keys t e Ht) as H.
  rewrite Hf in H. by destruct (find t (children (uk e))).
Qed.

Lemma update_keys_no_key e : iter (qname ns "key") e = [] -> uk e = e.
Proof.
  induction e as [tg at_ tx tl ch IH] using Element_ind'.
  rewrite iter_unfold, update_keys_unfold. simpl.
  case_decide; [done |]. simpl. intros Hn. unfold with_children. simpl.
  f_equal. apply flat_map_nil in Hn.
  rewrite Forall_forall in IH, Hn.
  induction ch as [| c r IHr]; simpl; [done |].
  rewrite IH by (try apply Hn; by left).
  f_equal. apply IHr; intros x Hx; [apply IH | apply Hn]; by right.
Qed.

Lemma plain_pitch_update_keys p : plain_pitch ns p -> plain_pitch ns (uk p).
Proof.
  intros [Hc Hn]. split.
  - by rewrite (count_tag_map_tag _ _ (children p))
      by apply map_tag_children_update_keys.
  - pose proof (iter_update_keys p) as Hi.
    rewrite (iter_unfold _ (uk p)), (iter_unfold _ p) in Hi.
    rewrite tag_update_keys, Hn in Hi.
    case_decide; simpl in Hi; [by injection Hi as Hi | done].
Qed.

End KeyMarkers.

(** ** The loop over the pitch markers *)

Lemma Forall_flat_map {A B} (P : B -> Prop) (f : A -> list B) l :
  Forall P (List.flat_map f l) <-> Forall (fun x => Forall P (f x)) l.
Proof.
  induction l as [| x r IH]; simpl.
  - split; constructor.
  - rewrite Forall_app, IH. split.
    + intros [? ?]. by constructor.
    + by inversion 1.
Qed.

Lemma Forall2_flat_map {A B C D} (R : C -> D -> Prop)
    (f : A -> list C) (g : B -> list D) l l' :
  Forall2 (fun x y => Forall2 R (f x) (g y)) l l' ->
  Forall2 R (List.flat_map f l) (List.flat_map g l').
Proof.
  induction 1 as [| x y r r' Hx _ IH]; simpl; [constructor |].
  by apply Forall2_app.
Qed.

Lemma Forall2_compose {A B C} (R1 : A -> B -> Prop) (R2 : B -> C -> Prop)
    (R : A -> C -> Prop) l1 l2 l3 :
  (forall x y z, R1 x y -> R2 y z -> R x z) ->
  Forall2 R1 l1 l2 -> Forall2 R2 l2 l3 -> Forall2 R l1 l3.
Proof.
  intros HR H1. revert l3.
  induction H1 as [| x y r1 r2 Hxy _ IH]; intros l3 H2;
    inversion H2; subst; constructor; by eauto.
Qed.

Section PitchMarkers.

Context (ns : string) (semitone_shift : Z) (prefer_sharps : bool).

Local Abbreviation pitch_tag := (qname ns "pitch").
Local Abbreviation walk := (transpose_pitches ns semitone_shift prefer_sharps).
Local Abbreviation edit_of := (pitch_edit ns semitone_shift prefer_sharps).

Lemma transpose_pitches_unfold e :
  walk e
  = (edit <- (if decide (tag e = pitch_tag) then edit_of (children e)
              else Return None) ;;
     ch' <- mapM walk (children e) ;;
     Return (with_children e (apply_edit ns edit ch'))).
Proof. by destruct e. Qed.

Lemma transpose_pitches_no_pitch e : iter pitch_tag e = [] -> walk e = Return e.
Proof.
  induction e as [tg at_ tx tl ch IH] using Element_ind'.
  rewrite iter_unfold, transpose_pitches_unfold. simpl.
  case_decide; [done |]. simpl. intros Hn.
  apply flat_map_nil in Hn.
  rewrite (mapM_id walk ch); [done |].
  rewrite Forall_forall in IH, Hn. apply Forall_forall. intros c Hc.
  by apply IH, Hn.
Qed.

Lemma apply_edit_no_pitch edit ch :
  List.flat_map (iter pitch_tag) ch = [] ->
  List.flat_map (iter pitch_tag) (apply_edit ns edit ch) = [].
Proof.
  intros Hn. destruct edit as [[[l a] o] |]; [| done]. simpl.
  unfold update_pitch.
  assert (List.flat_map (iter pitch_tag)
            (set_text (qname ns "octave") (Some (py_str o))
               (set_text (qname ns "step") (Some l) ch)) = []) as Hw.
  { by rewrite !flat_iter_set_text by tag_neq. }
  case_decide.
  - destruct (find (qname ns "alter") ch); [| done].
    by apply flat_iter_remove_found.
  - destruct (find (qname ns "alter") ch).
    + by rewrite flat_iter_set_text by tag_neq.
    + apply flat_iter_insert_child; [| done].
      rewrite iter_unfold. simpl. by rewrite decide_False by tag_neq.
Qed.

Lemma transpose_pitches_plain p :
  tag p = pitch_tag -> plain_pitch ns p ->
  walk p = rewrite_pitch ns semitone_shift prefer_sharps p.
Proof.
  intros Ht [_ Hn]. rewrite transpose_pitches_unfold, decide_True by done.
  unfold rewrite_pitch. rewrite (mapM_id walk (children p)); [done |].
  apply flat_map_nil in Hn. eapply Forall_impl; [apply Hn |].
  apply transpose_pitches_no_pitch.
Qed.

Lemma rewrite_pitch_transposed p p' :
  plain_pitch ns p ->
  rewrite_pitch ns semitone_shift prefer_sharps p = Return p' ->
  transposed_marker ns semitone_shift prefer_sharps p p'
  /\ plain_pitch ns p' /\ tag p' = tag p
  /\ List.flat_map (iter pitch_tag) (children p') = [].
Proof.
  intros [Hc Hn]. unfold rewrite_pitch.
  destruct (edit_of (children p)) as [| edit] eqn:He; [done |].
  simpl. intros [= <-]. unfold transposed_marker, plain_pitch. simpl.
  pose proof (apply_edit_no_pitch edit _ Hn) as Hn'.
  destruct edit as [new |]; simpl.
  - destruct (pitch_edit_Some _ _ _ _ _ He) as (st & a & o & pc & Hr & Hpc).
    destruct (pitch_edit_read ns semitone_shift prefer_sharps _ _ _ _ _
                Hr Hpc) as (l' & a' & He' & Hcn & _ & _).
    rewrite He in He'. injection He' as ->.
    destruct (read_pitch_Some _ _ _ Hr) as (s & oc & Hs & Ho & _).
    rewrite Hr. split; [| split; [split |]]; try done.
    + exists pc, l', a'. split; [done |]. split; [done |].
      by rewrite (read_pitch_update_pitch ns _ _ _ _ Hs Ho Hc).
    + by eapply update_pitch_alter_count.
  - apply pitch_edit_None in He. rewrite He. done.
Qed.

Lemma transpose_pitches_markers e e' :
  Forall (plain_pitch ns) (iter pitch_tag e) ->
  walk e = Return e' ->
  Forall2 (fun p p' => rewrite_pitch ns semitone_shift prefer_sharps p
                       = Return p')
    (iter pitch_tag e) (iter pitch_tag e').
Proof.
  revert e'. induction e as [tg at_ tx tl ch IH] using Element_ind'.
  intros e' Hp Hw. destruct (decide (tg = pitch_tag)) as [Ht | Ht].
  - rewrite iter_unfold in Hp. simpl in Hp. rewrite decide_True in Hp by done.
    simpl in Hp. apply Forall_cons in Hp as [Hp _].
    rewrite transpose_pitches_plain in Hw; [| exact Ht | exact Hp].
    destruct (rewrite_pitch_transposed _ _ Hp Hw) as (_ & _ & Ht' & Hn').
    destruct Hp as [_ Hn]. simpl in Hn.
    rewrite (iter_unfold _ e'), Hn', Ht', iter_unfold. simpl.
    rewrite Hn. rewrite !decide_True by done. simpl.
    constructor; [done | constructor].
  - rewrite iter_unfold in Hp. simpl in Hp.
    rewrite decide_False in Hp by done. simpl in Hp.
    rewrite transpose_pitches_unfold in Hw. simpl in Hw.
    rewrite decide_False in Hw by done. simpl in Hw.
    destruct (mapM walk ch) as [| ch'] eqn:Hm; [done |].
    simpl in Hw. injection Hw as <-.
    rewrite !iter_unfold. simpl. rewrite !decide_False by done. simpl.
    apply Forall2_flat_map. apply mapM_Forall2 in Hm.
    apply Forall_flat_map in Hp.
    clear Ht. induction Hm as [| c c' r r' Hc Hr IHr]; [constructor |].
    inversion IH; inversion Hp; subst. constructor; [by eauto | by eauto].
Qed.

Lemma transpose_pitches_returns e :
  Forall (fun p => returns (edit_of (children p))) (iter pitch_tag e) ->
  returns (walk e).
Proof.
  induction e as [tg at_ tx tl ch IH] using Element_ind'.
  rewrite iter_unfold, transpose_pitches_unfold. simpl. intros Hp.
  apply Forall_app in Hp as [Hp Hc].
  assert (returns (mapM walk ch)) as [ch' Hch].
  { apply mapM_returns. apply Forall_flat_map in Hc.
    rewrite Forall_forall in IH, Hc. apply Forall_forall. intros c Hin.
    by apply IH, Hc. }
  rewrite Hch. case_decide.
  - apply Forall_singleton in Hp as [edit He]. simpl in He. rewrite He.
    simpl. by eexists.
  - simpl. by eexists.
Qed.

Lemma transpose_pitches_edits e e' :
  walk e = Return e' ->
  Forall (fun p => returns (edit_of (children p))) (iter pitch_tag e).
Proof.
  revert e'. induction e as [tg at_ tx tl ch IH] using Element_ind'.
  intros e'. rewrite iter_unfold, transpose_pitches_unfold. simpl.
  intros Hw. apply Forall_app.
  destruct (if decide (tg = pitch_tag) then edit_of ch else Return None)
    as [| edit] eqn:He; [done |]. simpl in Hw.
  destruct (mapM walk ch) as [| ch'] eqn:Hm; [done |]. split.
  - case_decide; [| constructor]. apply Forall_singleton. by eexists.
  - apply Forall_flat_map. apply mapM_Forall2 in Hm. clear He Hw.
    induction Hm as [| c c' r r' Hc Hr IHr]; [constructor |].
    inversion IH; subst. constructor; [by eauto | by eauto].
Qed.

End PitchMarkers.

(** ** The document *)

Lemma chromatic_to_note_class c p step alter :
  0 <= c <= 11 ->
  chromatic_to_note c p = Return (step, alter) ->
  note_to_chromatic (Some step) alter = Return c.
Proof.
  intros Hc Hn.
  destruct (chromatic_to_note_inverse c p Hc) as (l & a & Hn' & _ & Hi).
  rewrite Hn in Hn'. by injection Hn' as -> ->.
Qed.

Section Document.

Context (ns : string) (semitone_shift : Z) (prefer_sharps : bool)
  (target_key : Z).

Local Abbreviation pitch_tag := (qname ns "pitch").

Lemma pitch_edit_update_keys p :
  pitch_edit ns semitone_shift prefer_sharps
    (children (update_keys ns target_key p))
  = pitch_edit ns semitone_shift prefer_sharps (children p).
Proof. unfold pitch_edit. by rewrite read_pitch_update_keys. Qed.

Lemma transposed_marker_update_keys p p' :
  transposed_marker ns semitone_shift prefer_sharps
    (update_keys ns target_key p) p' ->
  transposed_marker ns semitone_shift prefer_sharps p p'.
Proof. unfold transposed_marker. by rewrite read_pitch_update_keys. Qed.

Lemma rewrite_document_unfold root :
  rewrite_document ns semitone_shift prefer_sharps target_key root
  = (ch <- mapM (transpose_pitches ns semitone_shift prefer_sharps)
             (map (update_keys ns target_key) (children root)) ;;
     Return (with_children root ch)).
Proof. by destruct root. Qed.

Lemma rewrite_document_rewrites root root' :
  plain_pitches ns root ->
  rewrite_document ns semitone_shift prefer_sharps target_key root
  = Return root' ->
  tag root' = tag root
  /\ Forall2
       (fun p p' =>
          plain_pitch ns (update_keys ns target_key p)
          /\ rewrite_pitch ns semitone_shift prefer_sharps
               (update_keys ns target_key p) = Return p')
       (findall pitch_tag root) (findall pitch_tag root').
Proof.
  intros Hp. rewrite rewrite_document_unfold.
  destruct (mapM _ _) as [| ch'] eqn:Hm; [done |]. simpl. intros [= <-].
  split; [done |].
  apply (proj1 (Forall2_fmap_l (update_keys ns target_key)
                  (fun q p' =>
                     plain_pitch ns q
                     /\ rewrite_pitch ns semitone_shift prefer_sharps q
                        = Return p') _ _)).
  rewrite <- findall_update_keys.
  assert (Forall (plain_pitch ns)
            (findall pitch_tag
               (with_children root
                  (map (update_keys ns target_key) (children root)))))
    as Hc.
  { rewrite findall_update_keys. apply Forall_map.
    eapply Forall_impl; [apply Hp |]. apply plain_pitch_update_keys. }
  unfold findall in *. simpl in *.
  apply Forall_flat_map in Hc.
  apply Forall2_flat_map. apply mapM_Forall2 in Hm.
  induction Hm as [| c c' r r' Hw _ IH]; [constructor |].
  apply Forall_cons in Hc as [Hc Hr]. constructor; [| by apply IH].
  pose proof (transpose_pitches_markers _ _ _ _ _ Hc Hw) as H2.
  clear -Hc H2. induction H2 as [| p p' l l' Hpp _ IHl]; [constructor |].
  apply Forall_cons in Hc as [Hc1 Hc2]. constructor; [done | by apply IHl].
Qed.

Lemma rewrite_document_markers root root' :
  plain_pitches ns root ->
  rewrite_document ns semitone_shift prefer_sharps target_key root
  = Return root' ->
  Forall2 (transposed_marker ns semitone_shift prefer_sharps)
    (findall pitch_tag root) (findall pitch_tag root')
  /\ plain_pitches ns root' /\ tag root' = tag root.
Proof.
  intros Hp Hr.
  destruct (rewrite_document_rewrites _ _ Hp Hr) as [Ht HF].
  split; [| split; [| done]].
  - eapply Forall2_impl; [apply HF |]. simpl. intros p p' [Hpl Hrw].
    apply transposed_marker_update_keys.
    by apply (rewrite_pitch_transposed _ _ _ _ _ Hpl Hrw).
  - unfold plain_pitches.
    eapply Forall2_Forall_r; [apply HF |].
    apply Forall_forall. intros p _ p' [Hpl Hrw].
    by apply (rewrite_pitch_transposed _ _ _ _ _ Hpl Hrw).
Qed.

Lemma rewrite_document_returns root :
  Forall (fun p => returns (pitch_edit ns semitone_shift prefer_sharps
                              (children p)))
    (findall pitch_tag root) ->
  returns (rewrite_document ns semitone_shift prefer_sharps target_key root).
Proof.
  intros Hp. rewrite rewrite_document_unfold.
  assert (returns (mapM (transpose_pitches ns semitone_shift prefer_sharps)
                     (map (update_keys ns target_key) (children root))))
    as [ch' Hch]; [| rewrite Hch; simpl; by eexists].
  apply mapM_returns, Forall_map. unfold findall in Hp.
  apply Forall_flat_map in Hp. eapply Forall_impl; [apply Hp |].
  simpl. intros c Hc. apply transpose_pitches_returns.
  rewrite iter_update_keys. apply Forall_map.
  eapply Forall_impl; [apply Hc |]. simpl. intros p Hr.
  by rewrite pitch_edit_update_keys.
Qed.

End Document.

(** ** Transposing a document *)

Lemma check_keys_valid source_key target_key :
  -7 <= source_key <= 7 -> -7 <= target_key <= 7 ->
  check_keys (Some source_key) target_key
  = Return ((tonic_of target_key - tonic_of source_key) `mod` 12,
            bool_decide (0 <= target_key)).
Proof.
  intros Hs Ht. unfold check_keys.
  destruct (KEY_SIGNATURES_lookup _ Ht) as [e ->].
  by rewrite calculate_semitone_shift_tonic.
Qed.

Lemma round_trip_arith pc d :
  0 <= pc <= 11 ->
  let s1 := d `mod` 12 in
  let s2 := (- d) `mod` 12 in
  let pc1 := (pc + s1) `mod` 12 in
  (pc1 + s2) `mod` 12 = pc
  /\ (pc + s1) `div` 12 + (pc1 + s2) `div` 12
     = (if decide (s1 = 0) then 0 else 1).
Proof.
  intros Hpc s1 s2 pc1.
  assert (0 <= s1 <= 11) as H1
    by (subst s1; pose proof (Z.mod_pos_bound d 12); lia).
  assert (s2 = if decide (s1 = 0) then 0 else 12 - s1) as H2.
  { subst s1 s2. case_decide; Z.to_euclidean_division_equations; lia. }
  clearbody s1 s2. subst pc1.
  case_decide; subst s2; split; Z.to_euclidean_division_equations; lia.
Qed.

(** C1, as the code has it: transposing with the same source and target
    key keeps the chromatic class and the octave of every pitch marker and
    respells the note as [chromatic_to_note] spells its class under the
    policy of the key; the letter and the alteration are kept exactly
    where the marker already had that spelling. *)
Theorem same_key_transposition (root root' : Element) (k : Z) :
  -7 <= k <= 7 ->
  plain_pitches (ns_prefix_of (tag root)) root ->
  transpose_document (Some k) k root = Return root' ->
  check_keys (Some k) k = Return (0, bool_decide (0 <= k))
  /\ Forall2
       (fun p p' =>
          respelled_marker (ns_prefix_of (tag root)) (bool_decide (0 <= k))
            p p'
          /\ (forall step alter octave,
                read_pitch (ns_prefix_of (tag root)) (children p)
                = Return (Some (Some step, alter, octave)) ->
                alter = -1 \/ alter = 0 \/ alter = 1 ->
                read_pitch (ns_prefix_of (tag root)) (children p')
                = Return (Some (Some step, alter, octave))
                <-> kept_spelling (bool_decide (0 <= k)) step alter = true))
       (findall (qname (ns_prefix_of (tag root)) "pitch") root)
       (findall (qname (ns_prefix_of (tag root)) "pitch") root').
Proof.
  intros Hk Hp. unfold transpose_document.
  rewrite (check_keys_valid k k Hk Hk), Z.sub_diag. simpl.
  intros Hr. split; [done |].
  destruct (rewrite_document_markers _ _ _ _ _ _ Hp Hr) as (HF & _ & _).
  eapply Forall2_impl; [apply HF |]. simpl. intros p p'.
  unfold transposed_marker, respelled_marker.
  destruct (read_pitch _ (children p)) as [| [[[st a] o] |]]; try done.
  intros (pc & l' & a' & Hpc & Hn & Hr').
  apply note_to_chromatic_range in Hpc as Hrange.
  rewrite Z.add_0_r, Z.mod_small in Hn by lia.
  rewrite Z.add_0_r, Z.div_small, Z.add_0_r in Hr' by lia.
  split.
  - exists pc, l', a'. split; [done |]. split; [done |].
    split; [by eapply chromatic_to_note_class | done].
  - intros step alter octave Heq Ha. injection Heq as -> -> ->.
    rewrite <- (kept_spelling_spec _ _ _ _ Hpc Ha), Hr', Hn.
    split; [by intros [= -> ->] | by intros [= -> ->]].
Qed.

(** C2, as the code has it: after a transposition from A to B and back
    every pitch marker has its chromatic class again, and its octave when
    the two keys have the same tonic class; otherwise every octave is one
    higher, since both shifts go up. *)
Theorem round_trip_transposition (root root1 : Element) (key_a key_b : Z) :
  -7 <= key_a <= 7 -> -7 <= key_b <= 7 ->
  plain_pitches (ns_prefix_of (tag root)) root ->
  transpose_document (Some key_a) key_b root = Return root1 ->
  exists root2 shift,
    calculate_semitone_shift key_a key_b = Return shift
    /\ transpose_document (Some key_b) key_a root1 = Return root2
    /\ Forall2
         (same_class_marker (ns_prefix_of (tag root))
            (if decide (shift = 0) then 0 else 1))
         (findall (qname (ns_prefix_of (tag root)) "pitch") root)
         (findall (qname (ns_prefix_of (tag root)) "pitch") root2).
Proof.
  intros Ha Hb Hp. unfold transpose_document.
  rewrite (check_keys_valid key_a key_b Ha Hb),
    (check_keys_valid key_b key_a Hb Ha).
  cbn [bind fst snd]. intros Hr1.
  destruct (rewrite_document_markers _ _ _ _ _ _ Hp Hr1)
    as (HF1 & Hp1 & Ht1).
  rewrite Ht1.
  set (ns := ns_prefix_of (tag root)) in *.
  set (d := tonic_of key_b - tonic_of key_a) in *.
  replace (tonic_of key_a - tonic_of key_b) with (- d) in * by (subst d; lia).
  destruct (rewrite_document_returns ns ((- d) `mod` 12)
              (bool_decide (0 <= key_a)) key_a root1) as [root2 Hr2].
  { eapply Forall2_Forall_r; [apply HF1 |].
    apply Forall_forall. intros p _ p1. unfold transposed_marker.
    destruct (read_pitch ns (children p)) as [| [[[st a] o] |]]; try done.
    - intros (pc & l1 & a1 & Hpc & Hn & Hr).
      assert (note_to_chromatic (Some l1) a1
              = Return ((pc + d `mod` 12) `mod` 12)) as Hc1.
      { eapply chromatic_to_note_class; [| apply Hn].
        pose proof (Z.mod_pos_bound (pc + d `mod` 12) 12). lia. }
      destruct (pitch_edit_read ns ((- d) `mod` 12)
                  (bool_decide (0 <= key_a)) _ _ _ _ _ Hr Hc1)
        as (l2 & a2 & He & _).
      by eexists.
    - intros Hr. rewrite (pitch_edit_skipped _ _ _ _ Hr). by eexists. }
  exists root2, (d `mod` 12).
  split; [by apply calculate_semitone_shift_tonic |]. split; [done |].
  destruct (rewrite_document_markers _ _ _ _ _ _ Hp1 Hr2) as (HF2 & _ & _).
  eapply Forall2_compose; [| apply HF1 | apply HF2].
  simpl. intros p p1 p2. unfold transposed_marker, same_class_marker.
  destruct (read_pitch ns (children p)) as [| [[[st a] o] |]]; try done.
  - intros (pc & l1 & a1 & Hpc & Hn1 & Hread1). rewrite Hread1.
    intros (pc1 & l2 & a2 & Hpc1 & Hn2 & Hread2).
    apply note_to_chromatic_range in Hpc as Hrange.
    destruct (round_trip_arith pc d Hrange) as [Hback Hoct].
    assert (pc1 = (pc + d `mod` 12) `mod` 12) as ->.
    { erewrite chromatic_to_note_class in Hpc1; [by injection Hpc1 | |
        apply Hn1].
      pose proof (Z.mod_pos_bound (pc + d `mod` 12) 12). lia. }
    rewrite Hback in Hn2. exists pc, l2, a2. split; [done |].
    split; [by eapply chromatic_to_note_class |].
    rewrite Hread2. by rewrite <- Z.add_assoc, Hoct.
  - intros ->. done.
Qed.

Lemma plain_pitches_score fifths pitches :
  Forall (fun p => tag p = "pitch" /\ plain_pitch "" p) pitches ->
  plain_pitches "" (score fifths pitches).
Proof.
  intros Hp. unfold plain_pitches, findall, score. simpl.
  rewrite !app_nil_r. induction Hp as [| p r [Ht Hpl] _ IH]; [constructor |].
  simpl. rewrite app_nil_r, iter_unfold, Ht. simpl.
  pose proof Hpl as [Hc Hn]. change (qname "" "pitch") with "pitch" in Hn.
  rewrite Hn. simpl. constructor; [done | apply IH].
Qed.

Lemma same_key_transposition_witness :
  plain_pitches (ns_prefix_of (tag (score "0" [B_4; C_without_octave])))
    (score "0" [B_4; C_without_octave])
  /\ transpose_document (Some 0) 0 (score "0" [B_4; C_without_octave])
     = Return (score "0" [B_4; C_without_octave])
  /\ Forall2
       (fun p p' =>
          respelled_marker "" (bool_decide (0 <= 0)) p p'
          /\ (forall step alter octave,
                read_pitch "" (children p)
                = Return (Some (Some step, alter, octave)) ->
                alter = -1 \/ alter = 0 \/ alter = 1 ->
                read_pitch "" (children p')
                = Return (Some (Some step, alter, octave))
                <-> kept_spelling (bool_decide (0 <= 0)) step alter = true))
       [B_4; C_without_octave] [B_4; C_without_octave].
Proof.
  assert (plain_pitches "" (score "0" [B_4; C_without_octave])) as Hp.
  { apply plain_pitches_score.
    repeat constructor; simpl; lia. }
  split; [exact Hp |]. split; [vm_compute; reflexivity |].
  apply (same_key_transposition (score "0" [B_4; C_without_octave])
           (score "0" [B_4; C_without_octave]) 0);
    [lia | exact Hp | vm_compute; reflexivity].
Defined.

(** C1 fails on a B flat in C major: the transposition from key 0 to key 0
    spells the note with a sharp, so the letter B becomes A and the
    alteration -1 becomes 1. *)
Lemma same_key_counterexample :
  transpose_document (Some 0) 0 (score "0" [altered_pitch "B" "-1" "4"])
  = Return (score "0" [altered_pitch "A" "1" "4"])
  /\ map (fun p => read_pitch "" (children p))
       (findall "pitch" (score "0" [altered_pitch "B" "-1" "4"]))
     = [Return (Some (Some "B", -1, 4))]
  /\ map (fun p => read_pitch "" (children p))
       (findall "pitch" (score "0" [altered_pitch "A" "1" "4"]))
     = [Return (Some (Some "A", 1, 4))]
  /\ map (fun p => read_pitch "" (children p))
       (findall "pitch" (score "0" [altered_pitch "A" "1" "4"]))
     <> map (fun p => read_pitch "" (children p))
          (findall "pitch" (score "0" [altered_pitch "B" "-1" "4"])).
Proof.
  split; [vm_compute; reflexivity |]. split; [vm_compute; reflexivity |].
  split; [vm_compute; reflexivity |]. vm_compute. discriminate.
Qed.

Lemma round_trip_transposition_witness :
  plain_pitches (ns_prefix_of (tag (score "0" [natural_pitch "C" "4"])))
    (score "0" [natural_pitch "C" "4"])
  /\ transpose_document (Some 0) 2 (score "0" [natural_pitch "C" "4"])
     = Return (score "2" [natural_pitch "D" "4"])
  /\ exists root2 shift,
       calculate_semitone_shift 0 2 = Return shift
       /\ transpose_document (Some 2) 0 (score "2" [natural_pitch "D" "4"])
          = Return root2
       /\ Forall2
            (same_class_marker "" (if decide (shift = 0) then 0 else 1))
            [natural_pitch "C" "4"]
            (findall (qname "" "pitch") root2).
Proof.
  assert (plain_pitches "" (score "0" [natural_pitch "C" "4"])) as Hp.
  { apply plain_pitches_score. repeat constructor; simpl; lia. }
  split; [exact Hp |]. split; [vm_compute; reflexivity |].
  apply (round_trip_transposition (score "0" [natural_pitch "C" "4"])
           (score "2" [natural_pitch "D" "4"]) 0 2);
    [lia | lia | exact Hp | vm_compute; reflexivity].
Defined.

(** C2 fails on a C in octave 4: from C major to D major it becomes the D
    of octave 4, and from D major back to C major the shift is 10
    semitones up, so it becomes the C of octave 5. *)
Lemma round_trip_counterexample :
  transpose_document (Some 0) 2 (score "0" [natural_pitch "C" "4"])
  = Return (score "2" [natural_pitch "D" "4"])
  /\ transpose_document (Some 2) 0 (score "2" [natural_pitch "D" "4"])
     = Return (score "0" [natural_pitch "C" "5"])
  /\ map (fun p => read_pitch "" (children p))
       (findall "pitch" (score "0" [natural_pitch "C" "4"]))
     = [Return (Some (Some "C", 0, 4))]
  /\ map (fun p => read_pitch "" (children p))
       (findall "pitch" (score "0" [natural_pitch "C" "5"]))
     = [Return (Some (Some "C", 0, 5))]
  /\ map (fun p => read_pitch "" (children p))
       (findall "pitch" (score "0" [natural_pitch "C" "5"]))
     <> map (fun p => read_pitch "" (children p))
          (findall "pitch" (score "0" [natural_pitch "C" "4"])).
Proof.
  split; [vm_compute; reflexivity |]. split; [vm_compute; reflexivity |].
  split; [vm_compute; reflexivity |]. split; [vm_compute; reflexivity |].
  vm_compute. discriminate.
Qed.

(** C8, as the code has it: a pitch element without step child or without
    octave child is left as it is by the loop body, which raises nothing
    there; the walk keeps the element and goes on with the markers below
    it; the transposition of a document returns when the loop body returns
    on all other markers; and in the transposed document the other markers
    are transposed while this one is as it was after the loop over the key
    markers, which changes nothing in an element without key markers. *)
Theorem incomplete_marker_skipped (ns : string) (semitone_shift : Z)
    (prefer_sharps : bool) (p : Element) :
  find (qname ns "step") (children p) = None
  \/ find (qname ns "octave") (children p) = None ->
  pitch_edit ns semitone_shift prefer_sharps (children p) = Return None
  /\ rewrite_pitch ns semitone_shift prefer_sharps p = Return p
  /\ transpose_pitches ns semitone_shift prefer_sharps p
     = (ch <- mapM (transpose_pitches ns semitone_shift prefer_sharps)
                (children p) ;;
        Return (with_children p ch))
  /\ (List.flat_map (iter (qname ns "pitch")) (children p) = [] ->
      transpose_pitches ns semitone_shift prefer_sharps p = Return p)
  /\ (forall target_key root,
        Forall
          (fun q => q = p
                    \/ returns (pitch_edit ns semitone_shift prefer_sharps
                                  (children q)))
          (findall (qname ns "pitch") root) ->
        returns (rewrite_document ns semitone_shift prefer_sharps target_key
                   root))
  /\ (forall target_key root root',
        plain_pitches ns root ->
        rewrite_document ns semitone_shift prefer_sharps target_key root
        = Return root' ->
        Forall2
          (fun q q' =>
             transposed_marker ns semitone_shift prefer_sharps q q'
             /\ (q = p ->
                 q' = update_keys ns target_key p
                 /\ (iter (qname ns "key") p = [] -> q' = p)))
          (findall (qname ns "pitch") root)
          (findall (qname ns "pitch") root')).
Proof.
  intros Hm.
  assert (pitch_edit ns semitone_shift prefer_sharps (children p)
          = Return None) as He
    by (apply pitch_edit_skipped; by apply read_pitch_skipped).
  assert (transpose_pitches ns semitone_shift prefer_sharps p
          = (ch <- mapM (transpose_pitches ns semitone_shift prefer_sharps)
                     (children p) ;;
             Return (with_children p ch))) as Hw.
  { rewrite transpose_pitches_unfold. case_decide; [by rewrite He | done]. }
  split; [done |]. split; [| split; [done | split; [| split]]].
  - unfold rewrite_pitch. rewrite He. by destruct p.
  - intros Hn. rewrite Hw, (mapM_id _ (children p)); [by destruct p |].
    apply flat_map_nil in Hn. eapply Forall_impl; [apply Hn |].
    apply transpose_pitches_no_pitch.
  - intros target_key root Hr. apply rewrite_document_returns.
    eapply Forall_impl; [apply Hr |]. simpl. intros q [-> | Hq]; [| done].
    rewrite He. by eexists.
  - intros target_key root root' Hp Hr.
    destruct (rewrite_document_rewrites _ _ _ _ _ _ Hp Hr) as [_ HF].
    eapply Forall2_impl; [apply HF |]. simpl. intros q q' [Hpl Hq].
    split.
    { apply (transposed_marker_update_keys _ _ _ target_key).
      by apply (rewrite_pitch_transposed _ _ _ _ _ Hpl Hq). }
    intros ->.
    assert (q' = update_keys ns target_key p) as ->.
    { unfold rewrite_pitch in Hq.
      rewrite pitch_edit_update_keys, He in Hq. simpl in Hq.
      injection Hq as <-. by destruct (update_keys ns target_key p). }
    split; [done |]. apply update_keys_no_key.
Qed.

Lemma incomplete_marker_skipped_witness :
  (find (qname "" "step") (children C_without_octave) = None
   \/ find (qname "" "octave") (children C_without_octave) = None)
  /\ rewrite_pitch "" 2 true C_without_octave = Return C_without_octave
  /\ transpose_document (Some 0) 2 (score "0" [C_without_octave; B_4])
     = Return (score "2" [C_without_octave; altered_pitch "C" "1" "5"]).
Proof.
  split; [right; reflexivity |].
  destruct (incomplete_marker_skipped "" 2 true C_without_octave
              (or_intror eq_refl)) as (_ & Hr & _).
  split; [exact Hr | vm_compute; reflexivity].
Defined.

(** C8 fails on a pitch element without octave that holds a key marker:
    the loop over the pitch markers skips it, but the loop over the key
    markers reaches the key element inside it, so the marker comes out of
    the transposition with another fifths text. *)
Lemma incomplete_marker_counterexample :
  find (qname "" "octave") (children (C_without_octave_with_key "0")) = None
  /\ transpose_document (Some 0) 3
       (score "0" [C_without_octave_with_key "0"])
     = Return (score "3" [C_without_octave_with_key "3"])
  /\ findall "pitch" (score "0" [C_without_octave_with_key "0"])
     = [C_without_octave_with_key "0"]
  /\ findall "pitch" (score "3" [C_without_octave_with_key "3"])
     = [C_without_octave_with_key "3"]
  /\ C_without_octave_with_key "3" <> C_without_octave_with_key "0".
Proof.
  split; [reflexivity |]. split; [vm_compute; reflexivity |].
  split; [reflexivity |]. split; [reflexivity |]. discriminate.
Qed.

(** ** Exceptions do not depend on the target key *)

Lemma outcome_bind2 {A B C A' B' C'} (m : exc A) (n : exc B)
    (f : A -> B -> C) (m' : exc A') (n' : exc B') (f' : A' -> B' -> C') :
  outcome m = outcome m' -> outcome n = outcome n' ->
  outcome (x <- m ;; y <- n ;; Return (f x y))
  = outcome (x <- m' ;; y <- n' ;; Return (f' x y)).
Proof.
  unfold outcome. destruct m, m'; simpl; try done.
  destruct n, n'; simpl; done.
Qed.

Lemma pitch_edit_outcome ns shift1 sharps1 shift2 sharps2 ch :
  outcome (pitch_edit ns shift1 sharps1 ch)
  = outcome (pitch_edit ns shift2 sharps2 ch).
Proof.
  unfold pitch_edit.
  destruct (read_pitch ns ch) as [| [[[st a] o] |]]; try done.
  cbn [bind].
  destruct (note_to_chromatic st a) as [e | pc] eqn:Hpc.
  - by rewrite !(transpose_pitch_raises _ _ _ _ _ _ Hpc).
  - destruct (transpose_pitch_class shift1 sharps1 _ _ o _ Hpc)
      as (l1 & a1 & -> & _).
    destruct (transpose_pitch_class shift2 sharps2 _ _ o _ Hpc)
      as (l2 & a2 & -> & _).
    done.
Qed.

Section Outcome.

Context (ns : string) (shift1 shift2 : Z) (sharps1 sharps2 : bool)
  (key1 key2 : Z).

Local Abbreviation walk1 := (transpose_pitches ns shift1 sharps1).
Local Abbreviation walk2 := (transpose_pitches ns shift2 sharps2).

Lemma transpose_pitches_outcome_text e v1 v2 :
  outcome (walk1 (with_text e v1)) = outcome (walk1 e)
  /\ outcome (walk2 (with_text e v2)) = outcome (walk2 e).
Proof.
  rewrite !transpose_pitches_unfold. simpl. split.
  - by apply outcome_bind2.
  - by apply outcome_bind2.
Qed.

Lemma mapM_outcome_set_text t v1 v2 l1 l2 :
  Forall2 (fun x y => outcome (walk1 x) = outcome (walk2 y)) l1 l2 ->
  map tag l1 = map tag l2 ->
  outcome (mapM walk1 (set_text t v1 l1))
  = outcome (mapM walk2 (set_text t v2 l2)).
Proof.
  intros HF Ht. apply mapM_outcome. revert Ht.
  induction HF as [| x y r1 r2 Hxy Hr IH]; simpl; [constructor |].
  intros [= Hxt Hrt]. rewrite Hxt. case_decide.
  - constructor; [| exact Hr].
    destruct (transpose_pitches_outcome_text x v1 v2) as [-> _].
    destruct (transpose_pitches_outcome_text y v1 v2) as [_ ->]. done.
  - constructor; [done | by apply IH].
Qed.

Lemma transpose_pitches_outcome e :
  outcome (walk1 (update_keys ns key1 e))
  = outcome (walk2 (update_keys ns key2 e)).
Proof.
  induction e as [tg at_ tx tl ch IH] using Element_ind'.
  rewrite !transpose_pitches_unfold, !tag_update_keys.
  apply outcome_bind2.
  - case_decide; [| done]. rewrite !pitch_edit_update_keys.
    apply pitch_edit_outcome.
  - assert (Forall2 (fun x y => outcome (walk1 x) = outcome (walk2 y))
              (map (update_keys ns key1) ch) (map (update_keys ns key2) ch))
      as HF.
    { apply Forall2_fmap, Forall_Forall2_diag. exact IH. }
    rewrite !update_keys_unfold. simpl. case_decide.
    + apply mapM_outcome_set_text; [done |].
      by rewrite !map_tag_update_keys.
    + by apply mapM_outcome.
Qed.

Lemma rewrite_document_outcome root :
  outcome (rewrite_document ns shift1 sharps1 key1 root)
  = outcome (rewrite_document ns shift2 sharps2 key2 root).
Proof.
  rewrite !rewrite_document_unfold. unfold outcome.
  assert (outcome (mapM walk1 (map (update_keys ns key1) (children root)))
          = outcome (mapM walk2 (map (update_keys ns key2) (children root))))
    as Hm.
  { apply mapM_outcome, Forall2_fmap, Forall_Forall2_diag, Forall_forall.
    intros c _. apply transpose_pitches_outcome. }
  unfold outcome in Hm.
  destruct (mapM walk1 _), (mapM walk2 _); simpl in *; done.
Qed.

End Outcome.

(** ** The keys and the output path *)

Lemma check_keys_outcome key_signature key1 key2 :
  -7 <= key1 <= 7 -> -7 <= key2 <= 7 ->
  outcome (check_keys key_signature key1)
  = outcome (check_keys key_signature key2).
Proof.
  intros H1 H2. destruct key_signature as [s |]; [| done].
  destruct (decide (-7 <= s <= 7)) as [Hs | Hs].
  - by rewrite !check_keys_valid.
  - unfold check_keys.
    destruct (KEY_SIGNATURES_lookup _ H1) as [e1 ->].
    destruct (KEY_SIGNATURES_lookup _ H2) as [e2 ->].
    by rewrite !calculate_semitone_shift_raises.
Qed.

Lemma default_output_path_letter file_path key1 key2 entry1 entry2 :
  KEY_SIGNATURES !! key1 = Some entry1 ->
  KEY_SIGNATURES !! key2 = Some entry2 ->
  entry1.1.1 = entry2.1.1 ->
  default_output_path file_path key1 = default_output_path file_path key2.
Proof.
  intros H1 H2 Hl. unfold default_output_path, getitem.
  rewrite H1, H2. simpl. by rewrite Hl.
Qed.

(** ** The default output path is not the input path *)

Lemma split_on_cons sep s : exists p ps, split_on sep s = p :: ps.
Proof.
  induction s as [| c r (p & ps & IH)]; simpl; [by eauto |].
  rewrite IH. case_decide; by eauto.
Qed.

Lemma split_on_single sep s x : split_on sep s = [x] -> x = s.
Proof.
  revert x. induction s as [| c r IH]; simpl; intros x.
  - by intros [= <-].
  - destruct (split_on_cons sep r) as (p & ps & Hr). rewrite Hr in *.
    case_decide; [done |]. intros [= <- ->]. by rewrite (IH p).
Qed.

Lemma app_String c (a b : string) : String c a +:+ b = String c (a +:+ b).
Proof. reflexivity. Qed.

Lemma app_EmptyString (b : string) : "" +:+ b = b.
Proof. reflexivity. Qed.

Lemma last_split_on_app sep (a b : string) :
  List.last (split_on sep (a +:+ String sep b)) ""
  = List.last (split_on sep b) ""
  /\ (2 <= length (split_on sep (a +:+ String sep b)))%nat.
Proof.
  induction a as [| c a' [IHl IHn]];
    rewrite ?app_String, ?app_EmptyString; simpl.
  - rewrite decide_True by done.
    destruct (split_on_cons sep b) as (p & ps & ->). simpl. split; [done | lia].
  - destruct (split_on sep (a' +:+ String sep b)) as [| p [| q qs]];
      simpl in IHn; try lia.
    case_decide; simpl in *; (split; [done | lia]).
Qed.

Lemma last_filter_last {A} (P : A -> Prop) `{!forall x, Decision (P x)}
    (l : list A) (d : A) :
  l <> [] -> P (List.last l d) -> List.last (filter P l) d = List.last l d.
Proof.
  intros Hl. destruct (exists_last Hl) as (l' & x & ->).
  rewrite last_last. intros Hx.
  rewrite filter_app, (filter_cons_True P x []) by done.
  by rewrite filter_nil, last_last.
Qed.

Lemma string_app_assoc (a b c : string) :
  (a +:+ b) +:+ c = a +:+ (b +:+ c).
Proof.
  induction a as [| x a' IH]; rewrite ?app_String, ?app_EmptyString;
    [done | by f_equal].
Qed.

Lemma join_parts_snoc init n :
  join_parts (init ++ [n])
  = match init with
    | [] => n
    | _ => join_parts init +:+ String "/" n
    end.
Proof.
  induction init as [| p r IH]; [done |].
  destruct r as [| q r']; [done |].
  change (join_parts ((p :: q :: r') ++ [n]))
    with (p +:+ "/" +:+ join_parts ((q :: r') ++ [n])).
  rewrite IH.
  change (join_parts (p :: q :: r')) with (p +:+ "/" +:+ join_parts (q :: r')).
  by rewrite !string_app_assoc.
Qed.

Lemma path_root_of_cases s :
  path_root_of s = "" \/ path_root_of s = "/" \/ path_root_of s = "//".
Proof.
  destruct s as [| c1 [| c2 [| c3 r]]]; simpl; repeat case_decide; auto.
Qed.

Lemma basename_path_str root init n :
  root = "" \/ root = "/" \/ root = "//" ->
  split_on "/" n = [n] ->
  List.last (split_on "/" (path_str (mkPath root (init ++ [n])))) "" = n.
Proof.
  intros Hroot Hn.
  assert (path_str (mkPath root (init ++ [n]))
          = root +:+ join_parts (init ++ [n])) as ->.
  { unfold path_str. simpl. destruct init; simpl; by destruct root. }
  rewrite join_parts_snoc. destruct init as [| p r].
  - destruct Hroot as [-> | [-> | ->]].
    + rewrite app_EmptyString. by rewrite Hn.
    + change ("/" +:+ n) with ("" +:+ String "/" n).
      rewrite (proj1 (last_split_on_app _ _ _)). by rewrite Hn.
    + change ("//" +:+ n) with ("/" +:+ String "/" n).
      rewrite (proj1 (last_split_on_app _ _ _)). by rewrite Hn.
  - rewrite <- string_app_assoc.
    rewrite (proj1 (last_split_on_app _ _ _)). by rewrite Hn.
Qed.

Lemma string_app_length (a b : string) :
  String.length (a +:+ b) = (String.length a + String.length b)%nat.
Proof.
  induction a as [| c a' IH]; rewrite ?app_String, ?app_EmptyString; simpl;
    [done | by rewrite IH].
Qed.

Lemma rfind_get c s i : rfind c s = Some i -> get i s = Some c.
Proof.
  revert i. induction s as [| d r IH]; simpl; [done |]. intros i.
  destruct (rfind c r) as [j |].
  - intros [= <-]. by apply IH.
  - case_decide; [| done]. intros [= <-]. by subst.
Qed.

Lemma get_substring_app i s c x rest :
  get i s = Some c -> get i (substring 0 i s +:+ String x rest) = Some x.
Proof.
  revert i. induction s as [| d r IH]; intros [| j]; simpl;
    rewrite ?app_String, ?app_EmptyString; simpl; try done.
  apply IH.
Qed.

Lemma stem_of_not_prefix name rest :
  name <> stem_of name +:+ String "_" rest.
Proof.
  unfold stem_of. intros Heq.
  assert (name <> name +:+ String "_" rest) as Hlen.
  { intros H. apply (f_equal String.length) in H.
    rewrite string_app_length in H. simpl in H. lia. }
  destruct (rfind "." name) as [i |] eqn:Hi; [| done].
  destruct ((0 <? i)%nat && (i <? String.length name - 1)%nat); [| done].
  apply rfind_get in Hi.
  pose proof (get_substring_app i name _ "_"%char rest Hi) as Hg.
  rewrite <- Heq, Hi in Hg. done.
Qed.

Lemma default_output_path_fresh file_path target_key path :
  default_output_path file_path target_key = Return path ->
  path <> file_path.
Proof.
  unfold default_output_path, getitem. cbv zeta.
  destruct (KEY_SIGNATURES !! target_key) as [sig |]; [| done]. cbn [bind].
  set (P := path_of file_path).
  set (n := path_stem P +:+ "_transposed_to_" +:+ sig.1.1 +:+ ".xml").
  unfold with_name.
  case_decide as Hname; [done |]. case_decide as Hvalid; [done |].
  cbn [bind]. intros Hret Heq. injection Hret as Hret. subst path.
  assert (split_on "/" n = [n]) as Hn.
  { destruct (split_on_cons "/" n) as (x & xs & Hx).
    destruct xs as [| y ys].
    - by rewrite Hx, (split_on_single _ _ _ Hx).
    - exfalso. apply Hvalid. right. right. rewrite Hx. simpl. lia. }
  pose proof (basename_path_str (path_root P) (removelast (path_parts P)) n
                (path_root_of_cases file_path) Hn) as Hbase'.
  assert (List.last (split_on "/" file_path) "" = n) as Hbase.
  { rewrite <- Heq at 1. exact Hbase'. }
  assert (path_name P = n) as Hn'.
  { unfold path_name, P, path_of. cbn [path_parts].
    destruct (split_on_cons "/" file_path) as (x & xs & Hx).
    rewrite last_filter_last.
    - exact Hbase.
    - by rewrite Hx.
    - rewrite Hbase. split; [intros Hz; apply Hvalid; by left |].
      intros Hz. apply Hvalid. right. by left. }
  apply (stem_of_not_prefix n ("transposed_to_" +:+ sig.1.1 +:+ ".xml")).
  rewrite <- Hn' at 2. reflexivity.
Qed.


Lemma transpose_musicxml_Return music_file target_key fs path fs1 :
  transpose_musicxml music_file target_key None fs = Return (path, fs1) <->
  exists policy root root',
    check_keys (key_signature music_file) target_key = Return policy
    /\ fs !! file_path music_file = Some root
    /\ rewrite_document (ns_prefix_of (tag root)) policy.1 policy.2
         target_key root = Return root'
    /\ default_output_path (file_path music_file) target_key = Return path
    /\ fs1 = <[path := root']> fs.
Proof.
  unfold transpose_musicxml, ET_parse. split.
  - destruct (check_keys _ _) as [| policy]; [done |]. cbn [bind].
    destruct (fs !! file_path music_file) as [root |]; [| done]. cbn [bind].
    destruct (rewrite_document _ _ _ _ _) as [| root'] eqn:Hr; [done |].
    cbn [bind].
    destruct (default_output_path _ _) as [| out]; [done |]. cbn [bind].
    intros [= <- <-]. by exists policy, root, root'.
  - intros (policy & root & root' & -> & -> & Hr & -> & ->). cbn [bind].
    by rewrite Hr.
Qed.

(** C9: without an explicit output path the returned path depends on the
    target key only through the tonic letter of its table entry. Two valid
    target keys with the same letter give the same outcome, exception or
    path, and the second transposition of the same input stores its
    document where the first one stored its own, which is never the input
    file. *)
Theorem default_output_path_collision (music_file : MusicXMLFile)
    (key1 key2 : Z) (entry1 entry2 : string * option string * Z)
    (fs : gmap string Element) :
  KEY_SIGNATURES !! key1 = Some entry1 ->
  KEY_SIGNATURES !! key2 = Some entry2 ->
  entry1.1.1 = entry2.1.1 ->
  returned_path (transpose_musicxml music_file key1 None fs)
  = returned_path (transpose_musicxml music_file key2 None fs)
  /\ (forall path fs1,
        transpose_musicxml music_file key1 None fs = Return (path, fs1) ->
        exists root1 root2,
          fs1 = <[path := root1]> fs
          /\ transpose_musicxml music_file key2 None fs
             = Return (path, <[path := root2]> fs)
          /\ path <> file_path music_file
          /\ transpose_musicxml music_file key2 None fs1
             = Return (path, <[path := root2]> fs)).
Proof.
  intros H1 H2 Hl.
  apply KEY_SIGNATURES_range in H1 as Hk1.
  apply KEY_SIGNATURES_range in H2 as Hk2.
  pose proof (check_keys_outcome (key_signature music_file) key1 key2 Hk1 Hk2)
    as Hck.
  pose proof (default_output_path_letter (file_path music_file) _ _ _ _
                H1 H2 Hl) as Hpath.
  split.
  - unfold transpose_musicxml, returned_path.
    destruct (check_keys _ key1) as [e1 | pol1], (check_keys _ key2)
      as [e2 | pol2]; unfold outcome in Hck; simpl in Hck; try done.
    + by injection Hck as ->.
    + cbn [bind]. destruct (ET_parse fs _) as [e | root]; [done |].
      cbn [bind].
      pose proof (rewrite_document_outcome (ns_prefix_of (tag root))
                    pol1.1 pol2.1 pol1.2 pol2.2 key1 key2 root) as Hrd.
      unfold outcome in Hrd.
      destruct (rewrite_document _ _ _ key1 root),
        (rewrite_document _ _ _ key2 root); simpl in Hrd; try done.
      * by injection Hrd as ->.
      * cbn [bind]. rewrite Hpath.
        by destruct (default_output_path _ key2).
  - intros path fs1 Hrun.
    apply transpose_musicxml_Return in Hrun
      as (pol1 & root & root1 & Hc1 & Hfs & Hr1 & Hp1 & ->).
    assert (exists pol2, check_keys (key_signature music_file) key2
                         = Return pol2) as [pol2 Hc2].
    { rewrite Hc1 in Hck. destruct (check_keys _ key2); [done | by eexists]. }
    assert (exists root2,
               rewrite_document (ns_prefix_of (tag root)) pol2.1 pol2.2 key2
                 root = Return root2) as [root2 Hr2].
    { pose proof (rewrite_document_outcome (ns_prefix_of (tag root))
                    pol1.1 pol2.1 pol1.2 pol2.2 key1 key2 root) as Hrd.
      rewrite Hr1 in Hrd.
      destruct (rewrite_document _ _ _ key2 root); [done | by eexists]. }
    exists root1, root2. split; [done |]. split.
    + apply transpose_musicxml_Return.
      exists pol2, root, root2. by rewrite <- Hpath.
    + pose proof (default_output_path_fresh _ _ _ Hp1) as Hne.
      split; [done |]. apply transpose_musicxml_Return.
      exists pol2, root, root2. rewrite <- Hpath.
      rewrite lookup_insert_ne by done. by rewrite insert_insert_eq.
Qed.

Lemma shared_tonic_letters :
  (KEY_SIGNATURES !! 1 = Some ("G", None, 1)
   /\ KEY_SIGNATURES !! (-6) = Some ("G", Some "flat", 6))
  /\ (KEY_SIGNATURES !! (-7) = Some ("C", Some "flat", 7)
      /\ KEY_SIGNATURES !! 0 = Some ("C", None, 0)
      /\ KEY_SIGNATURES !! 7 = Some ("C", Some "sharp", 7)).
Proof. repeat split; vm_compute; reflexivity. Qed.

Lemma default_output_path_collision_witness :
  KEY_SIGNATURES !! 1 = Some ("G", None, 1)
  /\ KEY_SIGNATURES !! (-6) = Some ("G", Some "flat", 6)
  /\ returned_path
       (transpose_musicxml
          (mkMusicXMLFile "scores/sheet1.xml" (Some 0) None None) 1 None
          {[ "scores/sheet1.xml" := score "0" [B_4] ]})
     = Return "scores/sheet1_transposed_to_G.xml"
  /\ returned_path
       (transpose_musicxml
          (mkMusicXMLFile "scores/sheet1.xml" (Some 0) None None) (-6) None
          {[ "scores/sheet1.xml" := score "0" [B_4] ]})
     = Return "scores/sheet1_transposed_to_G.xml".
Proof.
  split; [vm_compute; reflexivity |]. split; [vm_compute; reflexivity |].
  destruct (default_output_path_collision
              (mkMusicXMLFile "scores/sheet1.xml" (Some 0) None None) 1 (-6)
              ("G", None, 1) ("G", Some "flat", 6)
              {[ "scores/sheet1.xml" := score "0" [B_4] ]}
              ltac:(vm_compute; reflexivity) ltac:(vm_compute; reflexivity)
              eq_refl) as [Heq _].
  split; [vm_compute; reflexivity |].
  rewrite <- Heq. vm_compute; reflexivity.
Defined.

(** ** The checks on the keys *)

Lemma check_keys_source_absent target_key :
  check_keys None target_key
  = Raise (ValueError "Source file must have a key signature to transpose").
Proof. done. Qed.

Lemma check_keys_target_out_of_range source_key target_key :
  ~ -7 <= target_key <= 7 ->
  check_keys (Some source_key) target_key
  = Raise (ValueError
             ("Target key must be between -7 and +7, got "
              ++ py_str target_key)).
Proof.
  intros Ht. unfold check_keys.
  destruct (KEY_SIGNATURES !! target_key) as [e |] eqn:He; [| done].
  apply KEY_SIGNATURES_range in He. lia.
Qed.

Lemma check_keys_source_out_of_range source_key target_key :
  -7 <= target_key <= 7 -> ~ -7 <= source_key <= 7 ->
  check_keys (Some source_key) target_key
  = Raise (KeyError (PyInt source_key)).
Proof.
  intros Ht Hs. unfold check_keys.
  destruct (KEY_SIGNATURES_lookup _ Ht) as [e ->].
  by rewrite calculate_semitone_shift_raises.
Qed.

Lemma check_keys_returns source_key target_key :
  returns (check_keys source_key target_key) <->
  exists s, source_key = Some s /\ -7 <= s <= 7 /\ -7 <= target_key <= 7.
Proof.
  split.
  - intros [pol Hp]. destruct source_key as [s |]; [| done]. exists s.
    destruct (decide (-7 <= target_key <= 7)) as [Ht | Ht].
    + destruct (decide (-7 <= s <= 7)) as [Hs | Hs]; [done |].
      by rewrite check_keys_source_out_of_range in Hp.
    + by rewrite check_keys_target_out_of_range in Hp.
  - intros (s & -> & Hs & Ht). rewrite check_keys_valid by done. by eexists.
Qed.

(** C3 at a source key outside the table: the target key is checked
    against the table and reported with a [ValueError], as the missing
    source key is, but the source key is not checked: the lookup in
    [calculate_semitone_shift] raises a [KeyError]. *)
Theorem source_key_out_of_range (path : string)
    (time : option (Z * Z)) (part : option string)
    (output_path : option string) (fs : gmap string Element) :
  transpose_musicxml (mkMusicXMLFile path (Some 8) time part) 0
    output_path fs
  = Raise (KeyError (PyInt 8))
  /\ transpose_musicxml (mkMusicXMLFile path (Some 0) time part) 9
       output_path fs
     = Raise (ValueError "Target key must be between -7 and +7, got 9")
  /\ transpose_musicxml (mkMusicXMLFile path None time part) 2
       output_path fs
     = Raise (ValueError
                "Source file must have a key signature to transpose").
Proof.
  unfold transpose_musicxml. cbn [key_signature]. split; [| split].
  - by rewrite check_keys_source_out_of_range by lia.
  - by rewrite check_keys_target_out_of_range by lia.
  - done.
Qed.

(** ** Scenarios *)

Example KEY_SIGNATURES_size : size KEY_SIGNATURES = 15%nat.
Proof. vm_compute. reflexivity. Qed.

Lemma calculate_semitone_shift_complement key1 key2 :
  -7 <= key1 <= 7 -> -7 <= key2 <= 7 ->
  exists shift back,
    calculate_semitone_shift key1 key2 = Return shift
    /\ calculate_semitone_shift key2 key1 = Return back
    /\ shift = (12 - back) `mod` 12.
Proof.
  intros H1 H2. eexists _, _.
  rewrite !calculate_semitone_shift_tonic by done.
  split; [done |]. split; [done |].
  Z.to_euclidean_division_equations; lia.
Qed.

(** A B in octave 4, two semitones up with sharps, is the C sharp of
    octave 5. *)
Example octave_boundary :
  rewrite_pitch "" 2 true (natural_pitch "B" "4")
  = Return (altered_pitch "C" "1" "5").
Proof. vm_compute. reflexivity. Qed.

(** Every key marker of the document gets the target key. *)
Example key_signature_propagation :
  transpose_document (Some 0) 3
    (parent_element "score-partwise"
       [parent_element "part"
          [parent_element "key" [text_element "fifths" "0"]];
        parent_element "part"
          [parent_element "key" [text_element "fifths" "0"]]])
  = Return
      (parent_element "score-partwise"
         [parent_element "part"
            [parent_element "key" [text_element "fifths" "3"]];
          parent_element "part"
            [parent_element "key" [text_element "fifths" "3"]]]).
Proof. vm_compute. reflexivity. Qed.

(** A document with a namespace: the tags carry the prefix. *)
Example namespace_prefix :
  ns_prefix_of "{http://www.musicxml.org/ns}score-partwise"
  = "{http://www.musicxml.org/ns}"
  /\ ns_prefix_of "score-partwise" = "".
Proof. split; vm_compute; reflexivity. Qed.

Example default_output_path_examples :
  default_output_path "/home/user/scores/sheet1.xml" 2
  = Return "/home/user/scores/sheet1_transposed_to_D.xml"
  /\ default_output_path "sheet1.musicxml" (-2)
     = Return "sheet1_transposed_to_B.xml"
  /\ default_output_path "/" 0
     = Raise (ValueError "PosixPath('/') has an empty name").
Proof. repeat split; vm_compute; reflexivity. Qed.

(** ** Pitch elements outside the schema *)

(** With two alter children the loop reads the first and, for a natural
    note, removes the first: the element then reads as the second one says.
    A C with alter children 0 and 1 is a C natural before the transposition
    from key 0 to key 0 and a C sharp after it. *)
Example second_alter_child_remains :
  rewrite_pitch "" 0 true
    (parent_element "pitch"
       [text_element "step" "C"; text_element "alter" "0";
        text_element "alter" "1"; text_element "octave" "4"])
  = Return (altered_pitch "C" "1" "4")
  /\ read_pitch ""
       [text_element "step" "C"; text_element "alter" "0";
        text_element "alter" "1"; text_element "octave" "4"]
     = Return (Some (Some "C", 0, 4))
  /\ read_pitch "" (children (altered_pitch "C" "1" "4"))
     = Return (Some (Some "C", 1, 4)).
Proof. repeat split; vm_compute; reflexivity. Qed.

(** A pitch element below the alter child of a pitch element leaves the
    document with that alter child: the document has two pitch markers
    before the transposition and one after it. *)
Example pitch_below_alter_child_removed :
  let inner := natural_pitch "C" "4" in
  let outer :=
    parent_element "pitch"
      [text_element "step" "B"; mkElement "alter" [] (Some "-1") None [inner];
       text_element "octave" "4"] in
  transpose_document (Some 0) 2 (score "0" [outer])
  = Return (score "2" [natural_pitch "C" "5"])
  /\ findall "pitch" (score "0" [outer]) = [outer; inner]
  /\ findall "pitch" (score "2" [natural_pitch "C" "5"])
     = [natural_pitch "C" "5"].
Proof. repeat split; vm_compute; reflexivity. Qed.

(** * The parser, the callers and whole documents *)

(** ** The circle of fifths *)

Lemma tonic_of_fifths key : -7 <= key <= 7 -> tonic_of key = (7 * key) `mod` 12.
Proof.
  intros Hk.
  assert (key = -7 \/ key = -6 \/ key = -5 \/ key = -4 \/ key = -3
          \/ key = -2 \/ key = -1 \/ key = 0 \/ key = 1 \/ key = 2
          \/ key = 3 \/ key = 4 \/ key = 5 \/ key = 6 \/ key = 7) as Hc by lia.
  repeat (destruct Hc as [-> | Hc]; [by vm_compute |]).
  subst. by vm_compute.
Qed.

(** X1: the shift between two keys of the table is seven semitones for
    every fifth between them, modulo 12; it is 0 exactly when the keys are
    equal or twelve fifths apart (the enharmonic pairs -7/5, -6/6, -5/7). *)
Theorem semitone_shift_circle_of_fifths (from_key to_key : Z) :
  -7 <= from_key <= 7 -> -7 <= to_key <= 7 ->
  calculate_semitone_shift from_key to_key
  = Return ((7 * (to_key - from_key)) `mod` 12)
  /\ (calculate_semitone_shift from_key to_key = Return 0
      <-> to_key = from_key \/ to_key = from_key + 12
          \/ to_key = from_key - 12).
Proof.
  intros Hf Ht.
  assert (calculate_semitone_shift from_key to_key
          = Return ((7 * (to_key - from_key)) `mod` 12)) as Hs.
  { rewrite calculate_semitone_shift_tonic by done.
    rewrite !tonic_of_fifths by done.
    rewrite <- Zminus_mod. f_equal. f_equal. lia. }
  split; [done |]. rewrite Hs. split.
  - intros H. injection H as H.
    Z.to_euclidean_division_equations. lia.
  - intros H. f_equal. Z.to_euclidean_division_equations. lia.
Qed.

Lemma semitone_shift_circle_of_fifths_witness :
  calculate_semitone_shift (-6) 6 = Return ((7 * (6 - -6)) `mod` 12)
  /\ (calculate_semitone_shift (-6) 6 = Return 0
      <-> 6 = -6 \/ 6 = -6 + 12 \/ 6 = -6 - 12).
Proof. apply (semitone_shift_circle_of_fifths (-6) 6); lia. Defined.

(** ** The names of the keys *)

Lemma key_display_inj key1 key2 entry1 entry2 :
  KEY_SIGNATURES !! key1 = Some entry1 ->
  KEY_SIGNATURES !! key2 = Some entry2 ->
  key_display entry1 = key_display entry2 -> key1 = key2.
Proof.
  intros H1 H2. unfold KEY_SIGNATURES in H1, H2.
  table_cases H1; table_cases H2; vm_compute; congruence.
Qed.

Lemma key_display_not_placeholder key entry :
  KEY_SIGNATURES !! key = Some entry ->
  key_display entry <> "Select a key...".
Proof.
  intros H. unfold KEY_SIGNATURES in H. table_cases H; vm_compute; congruence.
Qed.

Lemma display_of_entry key entry :
  KEY_SIGNATURES !! key = Some entry -> display_of key = key_display entry.
Proof. intros He. unfold display_of. by rewrite He. Qed.

Lemma key_options_loop_eq l options key_mapping :
  Forall (fun key => is_Some (KEY_SIGNATURES !! key)) l ->
  key_options_loop l options key_mapping
  = Return ((options ++ map display_of l)%list,
            foldl add_option key_mapping l).
Proof.
  intros Hl. revert options key_mapping.
  induction Hl as [| key l [entry He] _ IH]; intros options key_mapping.
  - cbn [key_options_loop map foldl]. by rewrite app_nil_r.
  - cbn [key_options_loop map foldl]. unfold getitem. rewrite He.
    cbn [bind]. rewrite IH, <- app_assoc.
    assert (display_of key = key_display entry) as Hd
      by (unfold display_of; by rewrite He).
    change (add_option key_mapping key)
      with (<[display_of key := key]> key_mapping).
    by rewrite Hd.
Qed.

Lemma foldl_add_option_other l key_mapping selected :
  Forall (fun key => display_of key <> selected) l ->
  foldl add_option key_mapping l !! selected = key_mapping !! selected.
Proof.
  intros Hl. revert key_mapping.
  induction Hl as [| key l Hk _ IH]; intros key_mapping; [done |].
  cbn [foldl]. rewrite IH. by apply lookup_insert_ne.
Qed.

Lemma foldl_add_option_lookup l key_mapping key :
  (forall k1 k2,
     k1 ∈ l -> k2 ∈ l -> display_of k1 = display_of k2 -> k1 = k2) ->
  key ∈ l ->
  foldl add_option key_mapping l !! display_of key = Some key.
Proof.
  revert key_mapping. induction l as [| x l IH]; intros key_mapping Hinj Hin.
  - by apply elem_of_nil in Hin.
  - cbn [foldl]. destruct (decide (key ∈ l)) as [Hl | Hl].
    + apply IH; [| done]. intros k1 k2 H1 H2. apply Hinj; by right.
    + apply elem_of_cons in Hin as [-> | Hin]; [| done].
      rewrite foldl_add_option_other; [apply lookup_insert_eq |].
      apply Forall_forall. intros k Hk Hd. apply Hl.
      rewrite <- (Hinj k x); [done | by right | by left | done].
Qed.

Lemma foldl_add_option_Some l key_mapping selected key :
  foldl add_option key_mapping l !! selected = Some key ->
  (key ∈ l /\ selected = display_of key)
  \/ key_mapping !! selected = Some key.
Proof.
  revert key_mapping. induction l as [| x l IH]; intros key_mapping H.
  - by right.
  - cbn [foldl] in H. apply IH in H as [[Hin Hd] | H].
    + left. split; [by right | done].
    + destruct (decide (display_of x = selected)) as [Hx | Hx].
      * unfold add_option in H. rewrite Hx, lookup_insert_eq in H.
        injection H as <-.
        left. split; [by left | done].
      * unfold add_option in H. rewrite lookup_insert_ne in H by done.
        by right.
Qed.

Lemma fifths_range_valid :
  Forall (fun key => is_Some (KEY_SIGNATURES !! key)) fifths_range.
Proof.
  apply Forall_forall. intros key Hk. apply elem_of_seqZ in Hk.
  apply KEY_SIGNATURES_lookup. lia.
Qed.

Lemma display_of_inj k1 k2 :
  k1 ∈ fifths_range -> k2 ∈ fifths_range ->
  display_of k1 = display_of k2 -> k1 = k2.
Proof.
  intros H1 H2.
  pose proof fifths_range_valid as Hv. rewrite Forall_forall in Hv.
  destruct (Hv _ H1) as [e1 He1], (Hv _ H2) as [e2 He2].
  unfold display_of. rewrite He1, He2. by apply key_display_inj.
Qed.

Lemma fifths_range_lookup key :
  -7 <= key <= 7 -> fifths_range !! Z.to_nat (key + 7) = Some key.
Proof.
  intros Hk. unfold fifths_range. rewrite lookup_seqZ. split; lia.
Qed.

Lemma create_key_options_eq :
  create_key_options
  = Return (map display_of fifths_range, foldl add_option ∅ fifths_range).
Proof.
  unfold create_key_options.
  by rewrite key_options_loop_eq by apply fifths_range_valid.
Qed.

Lemma key_mapping_lookup key entry :
  KEY_SIGNATURES !! key = Some entry ->
  foldl add_option ∅ fifths_range !! key_display entry = Some key.
Proof.
  intros He.
  replace (key_display entry) with (display_of key)
    by (unfold display_of; by rewrite He).
  apply foldl_add_option_lookup; [apply display_of_inj |].
  apply elem_of_seqZ. apply KEY_SIGNATURES_range in He. lia.
Qed.

(** X2: the options of the dropdown of the window are the names of the
    fifteen keys from -7 to 7 in order, no two keys have the same name,
    and [key_mapping] gives back the key of every option and holds nothing
    else. *)
Theorem create_key_options_round_trip :
  exists options key_mapping,
    create_key_options = Return (options, key_mapping)
    /\ length options = 15%nat
    /\ NoDup options
    /\ (forall key entry,
          KEY_SIGNATURES !! key = Some entry ->
          options !! Z.to_nat (key + 7) = Some (key_display entry)
          /\ key_mapping !! key_display entry = Some key)
    /\ (forall selected key,
          key_mapping !! selected = Some key ->
          options !! Z.to_nat (key + 7) = Some selected).
Proof.
  eexists _, _. split; [apply create_key_options_eq |].
  assert (forall key entry,
            KEY_SIGNATURES !! key = Some entry ->
            map display_of fifths_range !! Z.to_nat (key + 7)
            = Some (key_display entry)) as Ho.
  { intros key entry He. rewrite list_lookup_fmap, fifths_range_lookup.
    - change (Some (display_of key) = Some (key_display entry)).
      unfold display_of. by rewrite He.
    - by eapply KEY_SIGNATURES_range. }
  split; [by rewrite length_map |]. split; [| split].
  - apply NoDup_fmap_2_strong.
    + intros k1 k2 H1 H2. by apply display_of_inj.
    + apply NoDup_seqZ.
  - intros key entry He. split; [by apply Ho | by apply key_mapping_lookup].
  - intros selected key H.
    apply foldl_add_option_Some in H as [[Hin ->] | H]; [| done].
    pose proof fifths_range_valid as Hv. rewrite Forall_forall in Hv.
    destruct (Hv _ Hin) as [entry He].
    assert (display_of key = key_display entry) as ->
      by (unfold display_of; by rewrite He).
    by apply Ho.
Qed.

(** X3: the service lists the same fifteen keys as the window, each with
    its fifths, its name as the window displays it and its tonic letter;
    the subscript of the table never fails in the loop. *)
Theorem get_available_keys_options :
  exists keys options key_mapping,
    get_available_keys = Return keys
    /\ create_key_options = Return (options, key_mapping)
    /\ map display keys = options
    /\ map fifths keys = fifths_range
    /\ Forall (fun k => exists entry,
                 KEY_SIGNATURES !! fifths k = Some entry
                 /\ display k = key_display entry
                 /\ name k = entry.1.1
                 /\ key_mapping !! display k = Some (fifths k)) keys.
Proof.
  assert (returns get_available_keys) as [keys Hg].
  { apply mapM_returns. eapply Forall_impl; [apply fifths_range_valid |].
    intros key [entry He]. unfold getitem. rewrite He. by eexists. }
  exists keys. eexists _, _. split; [done |].
  split; [apply create_key_options_eq |].
  assert (Forall2 (fun key k => exists entry,
                     KEY_SIGNATURES !! key = Some entry
                     /\ k = mkKeyEntry key (key_display entry) entry.1.1)
            fifths_range keys) as HF.
  { apply mapM_Forall2 in Hg. eapply Forall2_impl; [exact Hg |].
    intros key k H. unfold getitem in H.
    destruct (KEY_SIGNATURES !! key) as [entry |]; [| done].
    cbn [bind] in H. injection H as <-. by exists entry. }
  clear Hg. revert HF. generalize fifths_range at 1 2 3. intros l HF.
  split; [| split].
  - induction HF as [| key k l l' (entry & He & ->) _ IH]; [done |].
    cbn [map display]. by rewrite IH, (display_of_entry _ _ He).
  - induction HF as [| key k l l' (entry & _ & ->) _ IH]; [done |].
    cbn [map fifths]. by rewrite IH.
  - induction HF as [| key k l l' (entry & He & ->) _ IH];
      constructor; [| done].
    exists entry. cbn [fifths display name]. repeat split; try done.
    by apply key_mapping_lookup.
Qed.

(** ** The selection of the window *)

Lemma check_keys_target_valid key_signature target_key e :
  -7 <= target_key <= 7 ->
  check_keys key_signature target_key = Raise e ->
  (key_signature = None
   /\ e = ValueError "Source file must have a key signature to transpose")
  \/ (exists source_key,
        key_signature = Some source_key /\ ~ -7 <= source_key <= 7
        /\ e = KeyError (PyInt source_key)).
Proof.
  intros Ht H. destruct key_signature as [source_key |].
  - right. exists source_key.
    destruct (decide (-7 <= source_key <= 7)) as [Hs | Hs].
    + by rewrite check_keys_valid in H.
    + rewrite check_keys_source_out_of_range in H by done.
      injection H as <-. done.
  - left. rewrite check_keys_source_absent in H. by injection H as <-.
Qed.

(** X4: with the [key_mapping] that [create_key_options] builds, selecting
    the name of a key of the table starts the transposition to that key
    when it is not the key of the loaded score, and shows a message when it
    is; a transposition is started only that way, so its target key is in
    the table and the checks of the keys can fail for the source key
    only. *)
Theorem transpose_music_selection (music_data : MusicXMLFile) :
  exists options key_mapping,
    create_key_options = Return (options, key_mapping)
    /\ (forall key entry,
          KEY_SIGNATURES !! key = Some entry ->
          transpose_music (Some music_data) key_mapping (key_display entry)
          = if decide (Some key = key_signature music_data)
            then showinfo "Info" "Music is already in the selected key!"
            else do_transpose music_data key)
    /\ (forall selected music_data' target,
          transpose_music (Some music_data) key_mapping selected
          = do_transpose music_data' target ->
          music_data' = music_data
          /\ key_signature music_data <> Some target
          /\ (exists entry,
                KEY_SIGNATURES !! target = Some entry
                /\ selected = key_display entry)
          /\ (forall e,
                check_keys (key_signature music_data) target = Raise e ->
                e = ValueError
                      "Source file must have a key signature to transpose"
                \/ exists source_key,
                     key_signature music_data = Some source_key
                     /\ ~ -7 <= source_key <= 7
                     /\ e = KeyError (PyInt source_key))).
Proof.
  eexists _, _. split; [apply create_key_options_eq |]. split.
  - intros key entry He. unfold transpose_music.
    destruct (decide (key_display entry = _)) as [Hp | _].
    { by apply (key_display_not_placeholder _ _ He) in Hp. }
    by rewrite (key_mapping_lookup _ _ He).
  - intros selected music_data' target H. unfold transpose_music in H.
    destruct (decide (selected = _)) as [| _]; [done |].
    destruct (foldl add_option ∅ fifths_range !! selected)
      as [target' |] eqn:Hs; [| done].
    destruct (decide (Some target' = _)) as [| Hne]; [done |].
    injection H as <- <-.
    apply foldl_add_option_Some in Hs as [[Hin ->] | Hs]; [| done].
    pose proof fifths_range_valid as Hv. rewrite Forall_forall in Hv.
    destruct (Hv _ Hin) as [entry He].
    split; [done |]. split; [congruence |]. split.
    + exists entry. split; [done |]. by apply display_of_entry.
    + intros e Hc. apply KEY_SIGNATURES_range in He.
      apply (check_keys_target_valid _ _ _ He) in Hc
        as [[_ ->] | (s & Hk & Hr & ->)]; [by left |]. right. by exists s.
Qed.

(** ** The requests of the service *)

Lemma transpose_request_cases session_id target_key sessions fs :
  match transpose session_id target_key sessions fs with
  | (HTTPException _ _, sessions', fs') => sessions' = sessions /\ fs' = fs
  | (Response _, sessions', fs') =>
      exists session_data path root,
        sessions !! session_id = Some session_data
        /\ default_output_path (xml_path session_data) target_key
           = Return path
        /\ path <> xml_path session_data
        /\ fs' = <[path := root]> fs
        /\ sessions'
           = <[session_id := with_transposed_path session_data path]>
               sessions
  end.
Proof.
  unfold transpose.
  destruct (sessions !! session_id) as [session_data |] eqn:Hs; [| done].
  destruct (KEY_SIGNATURES !! target_key) as [entry |] eqn:Ht; [| done].
  destruct (transpose_musicxml _ _ _ _) as [e | [path fs']] eqn:Hm; [done |].
  unfold getitem. rewrite Ht.
  apply transpose_musicxml_Return in Hm
    as (policy & root & root' & Hc & Hf & Hd & Hp & ->).
  cbn [key_signature file_path] in *.
  exists session_data, path, root'. split_and!; try done.
  by eapply default_output_path_fresh.
Qed.


(** X6: the conversion request answers 400 until a transposition of the
    session has succeeded. After a successful transposition it hands the
    renderer the file that the transposition wrote; a failed transposition
    and the requests of other sessions leave what it answers as it was, so
    the file of an earlier transposition is still served. *)
Theorem convert_to_pdf_after_transpose (session_id : string)
    (target_key : Z) (sessions : gmap string Session)
    (fs : gmap string Element) :
  (forall session_data,
     sessions !! session_id = Some session_data ->
     transposed_path session_data = None ->
     convert_to_pdf_source session_id sessions
     = HTTPException 400
         "No transposed file available. Please transpose first.")
  /\ match transpose session_id target_key sessions fs with
     | (Response _, sessions', fs') =>
         exists path,
           convert_to_pdf_source session_id sessions' = Response path
           /\ is_Some (fs' !! path)
           /\ forall session_data,
                sessions !! session_id = Some session_data ->
                default_output_path (xml_path session_data) target_key
                = Return path
     | (HTTPException _ _, sessions', fs') =>
         convert_to_pdf_source session_id sessions'
         = convert_to_pdf_source session_id sessions
     end
  /\ (forall other,
        other <> session_id ->
        convert_to_pdf_source other
          (transpose session_id target_key sessions fs).1.2
        = convert_to_pdf_source other sessions).
Proof.
  split; [| split].
  - intros session_data Hs Hp. unfold convert_to_pdf_source.
    by rewrite Hs, Hp.
  - pose proof (transpose_request_cases session_id target_key sessions fs) as H.
    destruct (transpose _ _ _ _) as [[[status detail | content] sessions'] fs'].
    + destruct H as (-> & _). done.
    + destruct H as (sd & path & root & Hs & Hp & _ & -> & ->).
      exists path. unfold convert_to_pdf_source.
      rewrite !lookup_insert_eq. cbn [transposed_path with_transposed_path].
      split; [done |]. split; [by eexists |].
      intros sd' Hs'. congruence.
  - intros other Hne.
    pose proof (transpose_request_cases session_id target_key sessions fs) as H.
    destruct (transpose _ _ _ _) as [[[status detail | content] sessions'] fs'].
    + destruct H as (-> & _). done.
    + destruct H as (sd & path & root & Hs & Hp & _ & -> & ->).
      cbn [fst snd]. unfold convert_to_pdf_source.
      by rewrite lookup_insert_ne.
Qed.

(** ** The key markers after the two loops *)

Section KeyMarkersAfter.

Variables (ns : string) (semitone_shift : Z) (prefer_sharps : bool).
Variable target_key : Z.

Local Abbreviation key_tag := (qname ns "key").
Local Abbreviation fifths_tag := (qname ns "fifths").
Local Abbreviation pitch_tag := (qname ns "pitch").
Local Abbreviation uk := (update_keys ns target_key).
Local Abbreviation walk := (transpose_pitches ns semitone_shift prefer_sharps).









End KeyMarkersAfter.



(** ** What the two loops leave alone *)

Section Frame.

Variables (ns : string) (semitone_shift : Z) (prefer_sharps : bool).
Variable target_key : Z.

Local Abbreviation uk := (update_keys ns target_key).
Local Abbreviation walk := (transpose_pitches ns semitone_shift prefer_sharps).






End Frame.



(** ** When a transposition returns *)

Lemma note_to_chromatic_returns step alter :
  returns (note_to_chromatic step alter)
  <-> exists letter, step = Some letter /\ letter ∈ NOTES.
Proof.
  unfold note_to_chromatic, getitem. split.
  - intros [pc H]. destruct step as [letter |]; [| done].
    exists letter. split; [done |].
    destruct (base_notes !! letter) as [b |] eqn:Hb; [| done].
    unfold base_notes in Hb. table_cases Hb; set_solver.
  - intros (letter & -> & Hin).
    assert (is_Some (base_notes !! letter)) as [b ->]; [| by eexists].
    unfold NOTES in Hin.
    repeat (apply elem_of_cons in Hin as [-> | Hin];
            [vm_compute; by eexists |]).
    by apply elem_of_nil in Hin.
Qed.

Lemma py_int_returns x :
  returns (py_int x) <-> exists t, x = Some t /\ is_Some (int_literal t).
Proof.
  unfold py_int. split.
  - intros [n H]. destruct x as [t |]; [| done]. exists t. split; [done |].
    by destruct (int_literal t).
  - intros (t & -> & [n ->]). by eexists.
Qed.

Lemma pitch_edit_returns ns semitone_shift prefer_sharps pitch_elem :
  returns (pitch_edit ns semitone_shift prefer_sharps pitch_elem)
  <-> readable_pitch ns pitch_elem.
Proof.
  unfold pitch_edit, read_pitch, readable_pitch.
  destruct (find (qname ns "step") pitch_elem) as [s |];
    [| split; [done | by eexists]].
  destruct (find (qname ns "octave") pitch_elem) as [o |];
    [| split; [done | by eexists]].
  split.
  - intros [new H].
    destruct (match find (qname ns "alter") pitch_elem with
              | Some alter => _ | None => _ end) as [| a] eqn:Ha; [done |].
    cbn [bind] in H.
    destruct (py_int (text o)) as [| oct] eqn:Ho; [done |]. cbn [bind] in H.
    destruct (transpose_pitch _ _ _) as [| new'] eqn:Hn; [done |].
    split; [| split].
    + intros alter t Hf Ht Hne. rewrite Hf, Ht in Ha.
      destruct t as [| c r]; [done |].
      assert (returns (py_int (Some (String c r)))) as Hr by by eexists.
      apply py_int_returns in Hr as (t & Heq & Hi). by injection Heq as <-.
    + apply py_int_returns. by eexists.
    + apply (note_to_chromatic_returns (text s) a).
      unfold transpose_pitch in Hn.
      destruct (note_to_chromatic (text s) a) as [| pc]; [done |].
      by eexists.
  - intros (Ha & Ho & Hs).
    apply py_int_returns in Ho as [oct Ho].
    assert (exists a,
              match find (qname ns "alter") pitch_elem with
              | Some alter =>
                  match text alter with
                  | Some (String _ _ as t) => py_int (Some t)
                  | _ => Return 0
                  end
              | None => Return 0
              end = Return a) as [a Hra].
    { destruct (find (qname ns "alter") pitch_elem) as [alter |];
        [| by eexists].
      destruct (text alter) as [[| c r] |] eqn:Ht; [by eexists | | by eexists].
      apply py_int_returns. exists (String c r). split; [done |].
      by eapply Ha. }
    rewrite Hra, Ho. cbn [bind].
    destruct (proj2 (note_to_chromatic_returns (text s) a) Hs) as [pc Hpc].
    destruct (transpose_pitch_class semitone_shift prefer_sharps
                _ _ oct _ Hpc) as (l' & a' & -> & _).
    by eexists.
Qed.

(** X9: for a document whose pitch elements have children with ASCII
    texts of at most 4000 characters, a transposition returns exactly when
    the source key is present, both keys are in the table, and every pitch
    element with a step and an octave child has an integer literal as the
    text of its octave child, an empty text or an integer literal in its
    alter child, and one of the seven letters as the text of its step
    child. *)
Theorem transpose_document_returns (key_signature : option Z)
    (target_key : Z) (root : Element) :
  short_ascii_pitches (ns_prefix_of (tag root)) root ->
  returns (transpose_document key_signature target_key root)
  <-> (exists source_key,
         key_signature = Some source_key /\ -7 <= source_key <= 7
         /\ -7 <= target_key <= 7)
      /\ Forall (fun p => readable_pitch (ns_prefix_of (tag root)) (children p))
           (findall (qname (ns_prefix_of (tag root)) "pitch") root).
Proof.
  intros _.
  unfold transpose_document. rewrite <- check_keys_returns. split.
  - intros [root' H].
    destruct (check_keys _ _) as [| policy]; [done |]. cbn [bind] in H.
    split; [by eexists |].
    rewrite rewrite_document_unfold in H.
    destruct (mapM _ _) as [| ch'] eqn:Hm; [done |].
    apply mapM_Forall2 in Hm. unfold findall. apply Forall_flat_map.
    apply Forall2_fmap_l in Hm.
    eapply Forall2_Forall_l; [exact Hm |].
    apply Forall_forall. intros c' _ c Hw. cbn in Hw.
    apply transpose_pitches_edits in Hw.
    rewrite iter_update_keys in Hw. rewrite Forall_forall in Hw.
    apply Forall_forall. intros p Hp.
    specialize (Hw _ (list_elem_of_fmap_2 _ _ _ Hp)). cbn beta in Hw.
    rewrite pitch_edit_update_keys in Hw. by apply pitch_edit_returns in Hw.
  - intros [[policy ->] Hp]. cbn [bind].
    apply rewrite_document_returns.
    eapply Forall_impl; [exact Hp |]. intros p Hr.
    by apply pitch_edit_returns.
Qed.

Lemma transpose_document_returns_witness :
  short_ascii_pitches "" (score "0" [B_4; C_without_octave])
  /\ (returns (transpose_document (Some 0) 2
                 (score "0" [B_4; C_without_octave]))
      <-> (exists source_key,
             Some 0 = Some source_key /\ -7 <= source_key <= 7
             /\ -7 <= 2 <= 7)
          /\ Forall (fun p => readable_pitch "" (children p))
               [B_4; C_without_octave]).
Proof.
  assert (short_ascii_pitches "" (score "0" [B_4; C_without_octave])) as Hs.
  { repeat (first [apply Forall_nil_2 | apply Forall_cons_2]);
      intros t Ht; injection Ht as <-; (split; [reflexivity | simpl; lia]). }
  split; [exact Hs |].
  exact (transpose_document_returns (Some 0) 2
           (score "0" [B_4; C_without_octave]) Hs).
Defined.

(** ** The spelling of the transposed notes *)

Lemma chromatic_to_note_kept c prefer_sharps step alter :
  chromatic_to_note c prefer_sharps = Return (step, alter) ->
  kept_spelling prefer_sharps step alter = true
  /\ (if prefer_sharps then alter = 0 \/ alter = 1
      else alter = 0 \/ alter = -1).
Proof.
  rewrite chromatic_to_note_mod.
  destruct (mod12_cases c) as [H | H];
    repeat (destruct H as [H | H]);
    rewrite H; destruct prefer_sharps; vm_compute;
    intros [= <- <-]; split; (reflexivity || (left; reflexivity)
                               || (right; reflexivity)).
Qed.

(** X10: in a transposed document every pitch marker that the loop
    processes reads as one of the seven naturals or as one of the five
    sharps C, D, F, G, A when the target key is not negative, and as a
    natural or one of the five flats D, E, G, A, B when it is negative; so
    a key with sharps never gets a flat and a key with flats never gets a
    sharp, and no E sharp, B sharp, C flat or F flat is written. *)
Theorem transposed_spelling (key_signature : option Z) (target_key : Z)
    (root root' : Element) :
  plain_pitches (ns_prefix_of (tag root)) root ->
  transpose_document key_signature target_key root = Return root' ->
  Forall
    (fun p' =>
       read_pitch (ns_prefix_of (tag root)) (children p') = Return None
       \/ exists letter alter octave,
            read_pitch (ns_prefix_of (tag root)) (children p')
            = Return (Some (Some letter, alter, octave))
            /\ kept_spelling (bool_decide (0 <= target_key)) letter alter
               = true
            /\ (0 <= target_key -> alter = 0 \/ alter = 1)
            /\ (target_key < 0 -> alter = 0 \/ alter = -1))
    (findall (qname (ns_prefix_of (tag root)) "pitch") root').
Proof.
  intros Hp. unfold transpose_document.
  destruct (check_keys key_signature target_key) as [| policy] eqn:Hc;
    [done |]. cbn [bind]. intros Hr.
  assert (policy.2 = bool_decide (0 <= target_key)) as Hpol.
  { unfold check_keys in Hc. destruct key_signature as [s |]; [| done].
    destruct (KEY_SIGNATURES !! target_key); [| done].
    destruct (calculate_semitone_shift s target_key); [done |].
    by injection Hc as <-. }
  destruct (rewrite_document_markers _ _ _ _ _ _ Hp Hr) as (HF & _ & _).
  eapply Forall2_Forall_r; [exact HF |].
  apply Forall_forall. intros p _ p'. unfold transposed_marker.
  destruct (read_pitch _ (children p)) as [| [[[st a] o] |]]; try done.
  - intros (pc & l' & a' & _ & Hn & Hread). right.
    exists l', a', (o + (pc + policy.1) `div` 12). split; [done |].
    apply chromatic_to_note_kept in Hn as [Hk Ha]. rewrite Hpol in Hk, Ha.
    split; [done |]. case_bool_decide; split; try done; lia.
  - by left.
Qed.

Lemma transposed_spelling_witness :
  plain_pitches "" (score "0" [altered_pitch "B" "-1" "4"])
  /\ transpose_document (Some 0) 0 (score "0" [altered_pitch "B" "-1" "4"])
     = Return (score "0" [altered_pitch "A" "1" "4"])
  /\ Forall
       (fun p' =>
          read_pitch "" (children p') = Return None
          \/ exists letter alter octave,
               read_pitch "" (children p')
               = Return (Some (Some letter, alter, octave))
               /\ kept_spelling (bool_decide (0 <= 0)) letter alter = true
               /\ (0 <= 0 -> alter = 0 \/ alter = 1)
               /\ (0 < 0 -> alter = 0 \/ alter = -1))
       [altered_pitch "A" "1" "4"].
Proof.
  assert (plain_pitches "" (score "0" [altered_pitch "B" "-1" "4"])) as Hp.
  { apply plain_pitches_score. repeat constructor; simpl; lia. }
  split; [exact Hp |]. split; [vm_compute; reflexivity |].
  exact (transposed_spelling (Some 0) 0
           (score "0" [altered_pitch "B" "-1" "4"])
           (score "0" [altered_pitch "A" "1" "4"])
           Hp ltac:(vm_compute; reflexivity)).
Defined.

(** ** The files after a transposition *)



(** ** Two transpositions in a row *)

Lemma two_shifts_arith pc ta tb tc :
  0 <= pc <= 11 ->
  let s_ab := (tb - ta) `mod` 12 in
  let s_bc := (tc - tb) `mod` 12 in
  let s_ac := (tc - ta) `mod` 12 in
  let pc1 := (pc + s_ab) `mod` 12 in
  (pc1 + s_bc) `mod` 12 = (pc + s_ac) `mod` 12
  /\ (pc + s_ab) `div` 12 + (pc1 + s_bc) `div` 12
     = (pc + s_ac) `div` 12 + (s_ab + s_bc) `div` 12
  /\ ((s_ab + s_bc) `div` 12 = 0 \/ (s_ab + s_bc) `div` 12 = 1).
Proof.
  intros Hpc s_ab s_bc s_ac pc1.
  assert (exists k, (k = 0 \/ k = 1) /\ s_ab + s_bc = s_ac + 12 * k
                    /\ 0 <= s_ab <= 11 /\ 0 <= s_bc <= 11
                    /\ 0 <= s_ac <= 11) as (k & Hk & Hs & Hab & Hbc & Hac).
  { subst s_ab s_bc s_ac.
    exists (((tb - ta) `mod` 12 + (tc - tb) `mod` 12) `div` 12).
    Z.to_euclidean_division_equations. lia. }
  clearbody s_ab s_bc s_ac. subst pc1.
  Z.to_euclidean_division_equations. lia.
Qed.

Lemma transposed_marker_returns ns shift prefer_sharps shift' prefer_sharps'
    p p' :
  transposed_marker ns shift prefer_sharps p p' ->
  returns (pitch_edit ns shift' prefer_sharps' (children p')).
Proof.
  unfold transposed_marker.
  destruct (read_pitch ns (children p)) as [| [[[st a] o] |]]; try done.
  - intros (pc & l1 & a1 & Hpc & Hn & Hr).
    assert (note_to_chromatic (Some l1) a1
            = Return ((pc + shift) `mod` 12)) as Hc1.
    { eapply chromatic_to_note_class; [| apply Hn].
      pose proof (Z.mod_pos_bound (pc + shift) 12). lia. }
    destruct (pitch_edit_read ns shift' prefer_sharps' _ _ _ _ _ Hr Hc1)
      as (l2 & a2 & He & _).
    by eexists.
  - intros Hr. rewrite (pitch_edit_skipped _ _ _ _ Hr). by eexists.
Qed.

(** X12: transposing from A to B and then from B to C succeeds whenever
    the transposition from A to B does, and gives every pitch marker the
    letter and the alteration that the direct transposition from A to C
    gives it; the octaves are those of the direct transposition when the
    two shifts together stay below twelve semitones, and all one higher
    otherwise. *)
Theorem two_transpositions (root root1 : Element) (key_a key_b key_c : Z) :
  -7 <= key_a <= 7 -> -7 <= key_b <= 7 -> -7 <= key_c <= 7 ->
  plain_pitches (ns_prefix_of (tag root)) root ->
  transpose_document (Some key_a) key_b root = Return root1 ->
  exists root2 root3 shift_ab shift_bc,
    calculate_semitone_shift key_a key_b = Return shift_ab
    /\ calculate_semitone_shift key_b key_c = Return shift_bc
    /\ transpose_document (Some key_b) key_c root1 = Return root2
    /\ transpose_document (Some key_a) key_c root = Return root3
    /\ ((shift_ab + shift_bc) `div` 12 = 0
        \/ (shift_ab + shift_bc) `div` 12 = 1)
    /\ Forall2
         (same_note_marker (ns_prefix_of (tag root))
            ((shift_ab + shift_bc) `div` 12))
         (findall (qname (ns_prefix_of (tag root)) "pitch") root3)
         (findall (qname (ns_prefix_of (tag root)) "pitch") root2).
Proof.
  intros Ha Hb Hc Hp. unfold transpose_document.
  rewrite (check_keys_valid key_a key_b Ha Hb),
    (check_keys_valid key_b key_c Hb Hc),
    (check_keys_valid key_a key_c Ha Hc).
  cbn [bind fst snd]. intros Hr1.
  destruct (rewrite_document_markers _ _ _ _ _ _ Hp Hr1)
    as (HF1 & Hp1 & Ht1).
  rewrite Ht1.
  set (ns := ns_prefix_of (tag root)) in *.
  set (ta := tonic_of key_a) in *. set (tb := tonic_of key_b) in *.
  set (tc := tonic_of key_c) in *.
  destruct (rewrite_document_returns ns ((tc - tb) `mod` 12)
              (bool_decide (0 <= key_c)) key_c root1) as [root2 Hr2].
  { eapply Forall2_Forall_r; [apply HF1 |].
    apply Forall_forall. intros p _ p1.
    apply transposed_marker_returns. }
  destruct (rewrite_document_returns ns ((tc - ta) `mod` 12)
              (bool_decide (0 <= key_c)) key_c root) as [root3 Hr3].
  { eapply Forall2_Forall_l; [apply HF1 |].
    apply Forall_forall. intros p1 _ p. unfold transposed_marker.
    destruct (read_pitch ns (children p)) as [| [[[st a] o] |]] eqn:Hread;
      try done.
    - intros (pc & l1 & a1 & Hpc & _).
      destruct (pitch_edit_read ns ((tc - ta) `mod` 12)
                  (bool_decide (0 <= key_c)) _ _ _ _ _ Hread Hpc)
        as (l2 & a2 & He & _).
      by eexists.
    - intros _. rewrite (pitch_edit_skipped _ _ _ _ Hread). by eexists. }
  exists root2, root3, ((tb - ta) `mod` 12), ((tc - tb) `mod` 12).
  split; [by apply calculate_semitone_shift_tonic |].
  split; [by apply calculate_semitone_shift_tonic |].
  split; [done |]. split; [done |].
  split.
  { pose proof (Z.mod_pos_bound (tb - ta) 12).
    pose proof (Z.mod_pos_bound (tc - tb) 12).
    Z.to_euclidean_division_equations. lia. }
  destruct (rewrite_document_markers _ _ _ _ _ _ Hp1 Hr2) as (HF2 & _ & _).
  destruct (rewrite_document_markers _ _ _ _ _ _ Hp Hr3) as (HF3 & _ & _).
  apply Forall2_flip in HF3.
  eapply Forall2_compose; [| apply HF3 |].
  2: { eapply Forall2_compose; [| apply HF1 | apply HF2].
       intros p p1 p2 H1 H2. exact (ex_intro _ p1 (conj H1 H2)). }
  cbn beta. intros p3 p p2 H3 (p1 & H1 & H2). revert H3 H1 H2.
  unfold flip, transposed_marker, same_note_marker.
  destruct (read_pitch ns (children p)) as [| [[[st a] o] |]]; try done.
  - intros (pc & l3 & a3 & Hpc & Hn3 & ->).
    intros (pc' & l1 & a1 & Hpc' & Hn1 & ->).
    assert (pc' = pc) as -> by congruence.
    intros (pc1 & l2 & a2 & Hpc1 & Hn2 & ->).
    apply note_to_chromatic_range in Hpc as Hrange.
    destruct (two_shifts_arith pc ta tb tc Hrange) as (Hclass & Hoct & _).
    assert (pc1 = (pc + (tb - ta) `mod` 12) `mod` 12) as ->.
    { erewrite chromatic_to_note_class in Hpc1; [by injection Hpc1 | |
        apply Hn1].
      pose proof (Z.mod_pos_bound (pc + (tb - ta) `mod` 12) 12). lia. }
    rewrite Hclass, Hn3 in Hn2. injection Hn2 as <- <-.
    do 3 f_equal. lia.
  - by intros -> -> ->.
Qed.

Lemma two_transpositions_witness :
  plain_pitches "" (score "0" [natural_pitch "A" "4"])
  /\ transpose_document (Some 0) 2 (score "0" [natural_pitch "A" "4"])
     = Return (score "2" [natural_pitch "B" "4"])
  /\ exists root2 root3 shift_ab shift_bc,
       calculate_semitone_shift 0 2 = Return shift_ab
       /\ calculate_semitone_shift 2 (-1) = Return shift_bc
       /\ transpose_document (Some 2) (-1)
            (score "2" [natural_pitch "B" "4"]) = Return root2
       /\ transpose_document (Some 0) (-1)
            (score "0" [natural_pitch "A" "4"]) = Return root3
       /\ ((shift_ab + shift_bc) `div` 12 = 0
           \/ (shift_ab + shift_bc) `div` 12 = 1)
       /\ Forall2 (same_note_marker "" ((shift_ab + shift_bc) `div` 12))
            (findall (qname "" "pitch") root3)
            (findall (qname "" "pitch") root2).
Proof.
  assert (plain_pitches "" (score "0" [natural_pitch "A" "4"])) as Hp.
  { apply plain_pitches_score. repeat constructor; simpl; lia. }
  split; [exact Hp |]. split; [vm_compute; reflexivity |].
  apply (two_transpositions (score "0" [natural_pitch "A" "4"])
           (score "2" [natural_pitch "B" "4"]) 0 2 (-1));
    [lia | lia | lia | exact Hp | vm_compute; reflexivity].
Defined.

(** ** The tags that the parser and the transposition look for *)


(** ** Reading a transposed document *)



Section Reparse.

Variables (ns : string) (semitone_shift : Z) (prefer_sharps : bool).
Variable target_key : Z.
Variable t : string.
Hypothesis t_pitch : t <> qname ns "pitch".
Hypothesis t_step : t <> qname ns "step".
Hypothesis t_alter : t <> qname ns "alter".
Hypothesis t_octave : t <> qname ns "octave".
Hypothesis t_fifths : t <> qname ns "fifths".

Local Abbreviation pitch_tag := (qname ns "pitch").
Local Abbreviation uk := (update_keys ns target_key).
Local Abbreviation walk := (transpose_pitches ns semitone_shift prefer_sharps).
Local Abbreviation free p := (List.flat_map (iter t) (children p) = []).








End Reparse.

Lemma parse_musicxml_summary path fs root :
  fs !! path = Some root ->
  let ns := default_namespace (tag root) in
  parse_musicxml path fs
  = score_summary path
      (text <$> find_below (path_tag ns "key") (path_tag ns "fifths") root)
      (text <$> find_below (path_tag ns "time") (path_tag ns "beats") root)
      (text <$> find_below (path_tag ns "time") (path_tag ns "beat-type")
                  root)
      (text <$> find_descendant (path_tag ns "part-name") root).
Proof.
  intros Hf ns. unfold parse_musicxml, ET_parse, score_summary, find_text.
  rewrite Hf. cbn [bind]. fold ns.
  destruct (find_below (path_tag ns "key") _ root) as [k |];
    destruct (find_below (path_tag ns "time") (path_tag ns "beats") root)
      as [b |];
    destruct (find_below (path_tag ns "time") (path_tag ns "beat-type") root)
      as [bt |];
    destruct (find_descendant _ root) as [pn |]; reflexivity.
Qed.


Section ReparseDocument.

Variables (ns : string) (semitone_shift : Z) (prefer_sharps : bool).
Variable target_key : Z.
Variables root root' : Element.
Hypothesis transposed :
  rewrite_document ns semitone_shift prefer_sharps target_key root
  = Return root'.



End ReparseDocument.



(** X15: [parse_musicxml] takes the key signature from the first fifths
    child of a key element as [int] reads it, without a check against the
    table of keys; with a key outside the table the score is parsed, and
    every transposition of it to a key of the table raises [KeyError]. *)
Theorem parsed_key_unchecked (path : string) (fs : gmap string Element)
    (root fifths_elem : Element) (n : Z) :
  fs !! path = Some root ->
  find_below (path_tag (default_namespace (tag root)) "key")
    (path_tag (default_namespace (tag root)) "fifths") root
  = Some fifths_elem ->
  py_int (text fifths_elem) = Return n ->
  returns (parse_musicxml path fs) ->
  exists music_file,
    parse_musicxml path fs = Return music_file
    /\ file_path music_file = path
    /\ key_signature music_file = Some n
    /\ (~ -7 <= n <= 7 ->
        forall target_key output_path,
          -7 <= target_key <= 7 ->
          transpose_musicxml music_file target_key output_path fs
          = Raise (KeyError (PyInt n))).
Proof.
  intros Hf Hk Hn [music_file Hparse]. exists music_file.
  split; [done |]. revert Hparse.
  rewrite (parse_musicxml_summary _ _ _ Hf). cbn zeta. rewrite Hk.
  unfold score_summary. cbn [fmap option_fmap option_map]. rewrite Hn.
  cbn [bind].
  destruct (match text <$> find_below _ (path_tag _ "beats") _ with
            | Some _ => _ | None => _ end) as [| ts]; [done |].
  cbn [bind]. intros [= <-]. cbn [file_path key_signature].
  split; [done |]. split; [done |].
  intros Hr target_key output_path Ht. unfold transpose_musicxml.
  cbn [key_signature]. by rewrite check_keys_source_out_of_range.
Qed.

Lemma parsed_key_unchecked_witness :
  exists music_file,
    parse_musicxml "s.xml" {[ "s.xml" := sheet "P" "8" "4" "4" [] ]}
    = Return music_file
    /\ file_path music_file = "s.xml"
    /\ key_signature music_file = Some 8
    /\ (~ -7 <= 8 <= 7 ->
        forall target_key output_path,
          -7 <= target_key <= 7 ->
          transpose_musicxml music_file target_key output_path
            {[ "s.xml" := sheet "P" "8" "4" "4" [] ]}
          = Raise (KeyError (PyInt 8))).
Proof.
  apply (parsed_key_unchecked "s.xml" _ (sheet "P" "8" "4" "4" [])
           (text_element "fifths" "8") 8);
    [vm_compute; reflexivity | vm_compute; reflexivity
     | vm_compute; reflexivity | eexists; vm_compute; reflexivity].
Defined.

(** ** The part name *)

Lemma lstrip_chars_clean P s :
  match lstrip_chars P s with
  | String c _ => P c = false
  | EmptyString => all_chars P s = true
  end.
Proof.
  induction s as [| c r IH]; [done |]. cbn [lstrip_chars all_chars].
  destruct (P c) eqn:Hc; [| done]. by destruct (lstrip_chars P r).
Qed.

Lemma all_chars_lstrip_chars P s :
  all_chars P (lstrip_chars P s) = all_chars P s.
Proof.
  induction s as [| c r IH]; [done |]. cbn [lstrip_chars all_chars].
  destruct (P c) eqn:Hc; [done |]. cbn [all_chars]. by rewrite Hc.
Qed.

Lemma rstrip_chars_empty P s :
  rstrip_chars P s = "" <-> all_chars P s = true.
Proof.
  induction s as [| c r IH]; [done |]. cbn [rstrip_chars all_chars].
  destruct (rstrip_chars P r) as [| c' r'].
  - destruct (P c); [| by split]. cbn. rewrite <- IH. by split.
  - destruct (all_chars P r); [| by rewrite andb_false_r; split].
    by destruct IH as [_ IH]; specialize (IH eq_refl).
Qed.

Lemma rstrip_chars_head P c r :
  P c = false -> exists r', rstrip_chars P (String c r) = String c r'.
Proof.
  intros Hc. cbn [rstrip_chars]. rewrite Hc.
  destruct (rstrip_chars P r); by eexists.
Qed.

Lemma rstrip_chars_idem P s :
  rstrip_chars P (rstrip_chars P s) = rstrip_chars P s.
Proof.
  induction s as [| c r IH]; [done |]. cbn [rstrip_chars].
  destruct (rstrip_chars P r) as [| c' r'] eqn:Hr.
  - destruct (P c) eqn:Hc; [done |]. cbn [rstrip_chars]. by rewrite Hc.
  - cbn [rstrip_chars]. cbn [rstrip_chars] in IH. by rewrite IH.
Qed.

Lemma str_strip_idem s : str_strip (str_strip s) = str_strip s.
Proof.
  unfold str_strip. pose proof (lstrip_chars_clean is_str_space s) as Hl.
  destruct (lstrip_chars is_str_space s) as [| c r]; [done |].
  destruct (rstrip_chars_head _ _ r Hl) as [r' Hr]. rewrite Hr.
  cbn [lstrip_chars]. rewrite Hl, <- Hr. apply rstrip_chars_idem.
Qed.

Lemma str_strip_empty s :
  str_strip s = "" <-> all_chars is_str_space s = true.
Proof.
  unfold str_strip. by rewrite rstrip_chars_empty, all_chars_lstrip_chars.
Qed.

(** X16: when the text of the first part-name element is an ASCII text,
    the part name that [parse_musicxml] returns is that text without the
    white space around it; it is absent when there is no such element or
    its text is empty, and it is the empty string (not absent) when the
    text is white space only. *)
Theorem find_text_stripped (ns : option string) (local : string)
    (root : Element) :
  (forall elem t,
     find_descendant (path_tag ns local) root = Some elem ->
     text elem = Some t -> ascii_text t) ->
  match find_text ns local root with
  | Some s =>
      str_strip s = s
      /\ exists elem t,
           find_descendant (path_tag ns local) root = Some elem
           /\ text elem = Some t /\ t <> "" /\ s = str_strip t
           /\ (s = "" <-> all_chars is_str_space t = true)
  | None =>
      forall elem,
        find_descendant (path_tag ns local) root = Some elem ->
        text elem = None \/ text elem = Some ""
  end.
Proof.
  intros _. unfold find_text.
  destruct (find_descendant _ root) as [elem |]; [| done].
  destruct (text elem) as [[| c r] |] eqn:Ht.
  - intros ? [= <-]. by right.
  - split; [apply str_strip_idem |]. exists elem, (String c r).
    split_and!; try done. apply str_strip_empty.
  - intros ? [= <-]. by left.
Qed.

Lemma find_text_stripped_witness :
  (forall elem t,
     find_descendant (path_tag None "part-name")
       (sheet " Piano " "0" "3" "4" []) = Some elem ->
     text elem = Some t -> ascii_text t)
  /\ find_text None "part-name" (sheet " Piano " "0" "3" "4" [])
     = Some "Piano"
  /\ str_strip "Piano" = "Piano".
Proof.
  assert (forall elem t,
            find_descendant (path_tag None "part-name")
              (sheet " Piano " "0" "3" "4" []) = Some elem ->
            text elem = Some t -> ascii_text t) as Ha.
  { intros elem t Hf Ht. vm_compute in Hf. injection Hf as <-.
    injection Ht as <-. reflexivity. }
  split; [exact Ha |]. split; [reflexivity |].
  pose proof (find_text_stripped None "part-name"
                (sheet " Piano " "0" "3" "4" []) Ha) as H.
  change (find_text None "part-name" (sheet " Piano " "0" "3" "4" []))
    with (Some "Piano") in H.
  exact (proj1 H).
Defined.

(** ** The namespace of the root *)

Lemma before_brace_app uri rest :
  all_chars no_brace uri = true ->
  before_brace (uri +:+ String "}" rest) = uri
  /\ has_brace (uri +:+ String "}" rest) = true.
Proof.
  induction uri as [| c r IH]; [done |]. cbn [all_chars].
  intros [Hc Hr]%andb_true_iff. rewrite app_String.
  cbn [before_brace has_brace].
  unfold no_brace in Hc. apply negb_true_iff, bool_decide_eq_false in Hc.
  rewrite !decide_False by tauto.
  destruct (IH Hr) as [-> ->]. done.
Qed.

Lemma rstrip_brace_no_brace uri :
  all_chars no_brace uri = true -> rstrip_brace uri = uri.
Proof.
  induction uri as [| c r IH]; [done |]. cbn [all_chars].
  intros [Hc Hr]%andb_true_iff. cbn [rstrip_brace]. rewrite (IH Hr).
  unfold no_brace in Hc. apply negb_true_iff, bool_decide_eq_false in Hc.
  destruct r; [| done]. by rewrite decide_False by tauto.
Qed.

Lemma lstrip_brace_no_brace uri :
  all_chars no_brace uri = true -> lstrip_brace uri = uri.
Proof.
  destruct uri as [| c r]; [done |]. cbn [all_chars].
  intros [Hc Hr]%andb_true_iff. cbn [lstrip_brace].
  unfold no_brace in Hc. apply negb_true_iff, bool_decide_eq_false in Hc.
  by rewrite decide_False by tauto.
Qed.

(** X13: for a root in a namespace (a tag of the form [{uri}name] with a
    namespace that is not empty and has no braces), the transposition and
    the parser look for the same tags, those of the namespace of the root;
    for a root without namespace both look for the plain names. *)
Theorem namespace_of_root (uri name local : string) :
  uri <> "" -> all_chars no_brace uri = true ->
  ns_prefix_of ("{" ++ uri ++ "}" ++ name) = "{" ++ uri ++ "}"
  /\ default_namespace ("{" ++ uri ++ "}" ++ name) = Some uri
  /\ qname (ns_prefix_of ("{" ++ uri ++ "}" ++ name)) local
     = "{" ++ uri ++ "}" ++ local
  /\ path_tag (default_namespace ("{" ++ uri ++ "}" ++ name)) local
     = "{" ++ uri ++ "}" ++ local
  /\ (has_brace name = false ->
      ns_prefix_of name = "" /\ default_namespace name = None
      /\ qname (ns_prefix_of name) local = local
      /\ path_tag (default_namespace name) local = local).
Proof.
  intros Hne Hu.
  change ("{" ++ uri ++ "}" ++ name)
    with (String "{" (uri +:+ String "}" name)).
  change ("{" ++ uri ++ "}") with (String "{" (uri +:+ "}")).
  change ("{" ++ uri ++ "}" ++ local)
    with (String "{" (uri +:+ String "}" local)).
  assert (rstrip_brace
            (lstrip_brace
               (before_brace (String "{" (uri +:+ String "}" name))))
          = uri
          /\ has_brace (String "{" (uri +:+ String "}" name)) = true)
    as [Hb Hh].
  { cbn [before_brace has_brace]. rewrite ?decide_False by done.
    destruct (before_brace_app uri name Hu) as [-> ->].
    cbn [lstrip_brace]. rewrite ?decide_True by done.
    by rewrite lstrip_brace_no_brace, rstrip_brace_no_brace. }
  assert (ns_prefix_of (String "{" (uri +:+ String "}" name))
          = String "{" (uri +:+ "}")) as Hp.
  { unfold ns_prefix_of. by rewrite Hh, Hb. }
  assert (default_namespace (String "{" (uri +:+ String "}" name))
          = Some uri) as Hd.
  { unfold default_namespace. by rewrite Hh, Hb. }
  split; [done |]. split; [done |]. split.
  { unfold qname. rewrite Hp, app_String. f_equal.
    by rewrite string_app_assoc. }
  split.
  { rewrite Hd. unfold path_tag. by destruct uri. }
  intros Hn. unfold ns_prefix_of, default_namespace. rewrite Hn. done.
Qed.

Lemma namespace_of_root_witness :
  ns_prefix_of "{http://www.musicxml.org/ns}score-partwise"
  = "{http://www.musicxml.org/ns}"
  /\ path_tag (default_namespace "{http://www.musicxml.org/ns}score-partwise")
       "key"
     = "{http://www.musicxml.org/ns}key".
Proof.
  destruct (namespace_of_root "http://www.musicxml.org/ns" "score-partwise"
              "key" ltac:(discriminate) ltac:(vm_compute; reflexivity))
    as (H1 & _ & _ & H2 & _).
  split; [exact H1 | exact H2].
Defined.

(** ** The height of the transposed notes *)

Lemma chromatic_to_note_offset c prefer_sharps step alter :
  chromatic_to_note c prefer_sharps = Return (step, alter) ->
  exists b, base_notes !! step = Some b /\ b + alter = c `mod` 12.
Proof.
  rewrite chromatic_to_note_mod.
  destruct (mod12_cases c) as [H | H];
    repeat (destruct H as [H | H]);
    rewrite H; destruct prefer_sharps; vm_compute;
    intros [= <- <-]; eexists; split; reflexivity.
Qed.

(** X17: a transposition raises every note by the semitone shift between
    the two keys: the written height (twelve times the octave plus the
    offset of the letter plus the alteration) of each processed pitch
    marker grows by exactly the shift when the letter with its alteration
    stays within the octave; a C flat comes out twelve semitones higher
    than that and a B sharp twelve semitones lower, since the class is
    reduced modulo 12 in the written octave. *)
Theorem transposed_height (source_key target_key : Z) (root root' : Element) :
  -7 <= source_key <= 7 -> -7 <= target_key <= 7 ->
  plain_pitches (ns_prefix_of (tag root)) root ->
  transpose_document (Some source_key) target_key root = Return root' ->
  exists shift,
    calculate_semitone_shift source_key target_key = Return shift
    /\ Forall2 (raised_marker (ns_prefix_of (tag root)) shift)
         (findall (qname (ns_prefix_of (tag root)) "pitch") root)
         (findall (qname (ns_prefix_of (tag root)) "pitch") root').
Proof.
  intros Hs Ht Hp. unfold transpose_document.
  rewrite (check_keys_valid _ _ Hs Ht). cbn [bind fst snd]. intros Hr.
  eexists. split; [by apply calculate_semitone_shift_tonic |].
  destruct (rewrite_document_markers _ _ _ _ _ _ Hp Hr) as (HF & _ & _).
  eapply Forall2_impl; [exact HF |]. intros p p'.
  unfold transposed_marker, raised_marker.
  set (shift := (tonic_of target_key - tonic_of source_key) `mod` 12).
  destruct (read_pitch _ (children p)) as [| [[[st a] o] |]]; try done.
  intros (pc & l' & a' & Hpc & Hn & Hread).
  unfold note_to_chromatic, getitem in Hpc.
  destruct st as [letter |]; [| done].
  destruct (base_notes !! letter) as [b |] eqn:Hbase; [| done].
  cbn [bind] in Hpc. injection Hpc as <-.
  apply chromatic_to_note_offset in Hn as (b' & Hb' & Hsum).
  exists letter, b, l', a', (o + ((b + a) `mod` 12 + shift) `div` 12), b'.
  split; [done |]. split; [done |]. split; [done |]. split; [done |].
  rewrite Z.mod_mod in Hsum by done.
  Z.to_euclidean_division_equations. lia.
Qed.

Lemma transposed_height_witness :
  plain_pitches "" (score "7" [altered_pitch "B" "1" "4"])
  /\ transpose_document (Some 7) 2 (score "7" [altered_pitch "B" "1" "4"])
     = Return (score "2" [altered_pitch "C" "1" "4"])
  /\ exists shift,
       calculate_semitone_shift 7 2 = Return shift
       /\ Forall2 (raised_marker "" shift)
            [altered_pitch "B" "1" "4"] [altered_pitch "C" "1" "4"].
Proof.
  assert (plain_pitches "" (score "7" [altered_pitch "B" "1" "4"])) as Hp.
  { apply plain_pitches_score. repeat constructor; simpl; lia. }
  split; [exact Hp |]. split; [vm_compute; reflexivity |].
  exact (transposed_height 7 2 (score "7" [altered_pitch "B" "1" "4"])
           (score "2" [altered_pitch "C" "1" "4"])
           ltac:(lia) ltac:(lia) Hp ltac:(vm_compute; reflexivity)).
Defined.
